(** * Interest-Rate-Models: Vasicek and Ho-Lee short-rate models

    A shallow embedding of [models.py] (Euler-Maruyama path simulation) and
    [calibration.py] (one-step residuals handed to a least-squares solver),
    followed by the properties of these functions.

    Conventions of the embedding.
    - A Python/NumPy [float] is an IEEE-754 binary64 number: Rocq's primitive
      [float], whose operations are the correctly rounded ones NumPy uses.
      The simulation code is written over the interface [Scalar], whose
      operations are those of binary64; its instances differ in the division
      [T / dt] only.
    - The horizon [T] and the step [dt] are Python numbers, so that [T / dt]
      is Python's true division (instance [binary64]); an integer argument
      such as [T=1] stands for the float of the same value.  Where a
      statement also covers a call whose [T] or [dt] is a NumPy scalar, it
      says so and uses the instance [numpy64].
    - A Python exception is a value [Raise e] of the type [result].  NumPy's
      floating-point warnings (division by zero, invalid value) are not
      exceptions and are not modelled.
    - A one-dimensional array is a list, a two-dimensional array the list of
      its rows.  Arrays of any size can be allocated: [np_zeros] and
      [np_random_normal] know neither the memory of the machine nor NumPy's
      limit on the size of an array, [within_array_limit], which is a
      hypothesis where it is named.
    - The process-wide generator behind [np.random.normal] is the stream of
      standard-normal variates it will deliver from its current state. *)

From Stdlib Require Import ZArith Floats Lia String.
From stdpp Require Import base list.

#[local] Set Warnings "-inexact-float".

(** ** Exceptions *)

Inductive exn : Set :=
| ZeroDivisionError
| OverflowError
| ValueError
| IndexError.

Inductive result (A : Type) : Type :=
| Ok (x : A)
| Raise (e : exn).
Arguments Ok {A} x.
Arguments Raise {A} e.

Definition bind {A B : Type} (r : result A) (k : A -> result B) : result B :=
  match r with
  | Ok x => k x
  | Raise e => Raise e
  end.

Notation "x <- e ;; k" := (bind e (fun x => k))
  (at level 100, e at next level, right associativity, only parsing).

Definition result_map {A B : Type} (f : A -> B) (r : result A) : result B :=
  x <- r ;; Ok (f x).

Definition returns {A : Type} (r : result A) : Prop :=
  exists x, r = Ok x.

(** Monadic left fold: the body of a [for] loop run over the values of its
    range, stopping at the first exception. *)
Fixpoint for_each {S I : Type} (body : S -> I -> result S) (range : list I) (s : S)
  : result S :=
  match range with
  | [] => Ok s
  | i :: range' => s' <- body s i ;; for_each body range' s'
  end.

(** ** The scalar interface: what the code asks of a Python float *)

Class Scalar (num : Type) : Type := {
  (** [0.0], the fill value of [np.zeros] *)
  num_zero : num;
  num_add : num -> num -> num;
  num_sub : num -> num -> num;
  num_mul : num -> num -> num;
  (** [np.sqrt] of a scalar *)
  num_sqrt : num -> num;
  (** [x / y] on Python scalars: raises [ZeroDivisionError] when [y] is zero *)
  num_truediv : num -> num -> result num;
  (** [int(x)]: truncation toward zero *)
  num_int : num -> result Z;
}.

(** *** binary64 *)

(** [int(x)] for a Python float: [ValueError] on nan, [OverflowError] on an
    infinity, otherwise the exact integer obtained by dropping the
    fractional part. *)
Definition float_int (x : float) : result Z :=
  match Prim2SF x with
  | S754_nan => Raise ValueError
  | S754_infinity _ => Raise OverflowError
  | S754_zero _ => Ok 0%Z
  | S754_finite s m e => Ok (cond_Zopp s (Z.shiftl (Z.pos m) e))
  end.

Definition float_truediv (x y : float) : result float :=
  if PrimFloat.eqb y 0%float then Raise ZeroDivisionError else Ok (x / y)%float.

#[export] Instance binary64 : Scalar float := {|
  num_zero := 0%float;
  num_add := PrimFloat.add;
  num_sub := PrimFloat.sub;
  num_mul := PrimFloat.mul;
  num_sqrt := PrimFloat.sqrt;
  num_truediv := float_truediv;
  num_int := float_int;
|}.

(** *** NumPy scalars *)

(** [x / y] when [x] or [y] is a NumPy scalar ([np.float64]) and not a
    Python number: the IEEE quotient, an infinity or nan for a zero divisor,
    and no exception. *)
Definition numpy_truediv (x y : float) : result float := Ok (x / y)%float.

(** The arithmetic of a call whose [T] or [dt] is a NumPy scalar: all but
    the division is as for Python numbers. *)
Definition numpy64 : Scalar float := {|
  num_zero := 0%float;
  num_add := PrimFloat.add;
  num_sub := PrimFloat.sub;
  num_mul := PrimFloat.mul;
  num_sqrt := PrimFloat.sqrt;
  num_truediv := numpy_truediv;
  num_int := float_int;
|}.

(** What [T] and [dt] are: both Python numbers, or at least one of them a
    NumPy scalar. *)
Inductive scalars : Set :=
| python_numbers
| numpy_scalars.

Definition arithmetic (kind : scalars) : Scalar float :=
  match kind with
  | python_numbers => binary64
  | numpy_scalars => numpy64
  end.

(** ** The fragment of NumPy the code uses *)

(** One- and two-dimensional arrays, and the state of the generator. *)
Abbreviation rng num := (nat -> num) (only parsing).
Abbreviation ndarray1 num := (list num) (only parsing).
Abbreviation ndarray2 num := (list (list num)) (only parsing).

Section NumPy.
Context {num : Type} {SC : Scalar num}.

(** [np.zeros((rows, cols))] *)
Definition np_zeros (rows cols : Z) : result (ndarray2 num) :=
  if ((rows <? 0) || (cols <? 0))%Z then Raise ValueError
  else Ok (replicate (Z.to_nat rows) (replicate (Z.to_nat cols) num_zero)).

(** [arr[i]] for a non-negative [i] *)
Definition getitem (arr : ndarray2 num) (i : nat) : result (ndarray1 num) :=
  match arr !! i with
  | Some row => Ok row
  | None => Raise IndexError
  end.

(** Broadcasting a one-dimensional array to length [n]. *)
Definition broadcast_to (n : nat) (v : ndarray1 num) : result (ndarray1 num) :=
  if decide (length v = n) then Ok v
  else match v with
       | [x] => Ok (replicate n x)
       | _ => Raise ValueError
       end.

(** [arr[i] = v] for a scalar [v]: every entry of the row becomes [v]. *)
Definition setitem_scalar (arr : ndarray2 num) (i : nat) (v : num) : result (ndarray2 num) :=
  match arr !! i with
  | Some row => Ok (<[i := (fun _ => v) <$> row]> arr)
  | None => Raise IndexError
  end.

(** [arr[i] = v] for a one-dimensional [v]. *)
Definition setitem (arr : ndarray2 num) (i : nat) (v : ndarray1 num) : result (ndarray2 num) :=
  match arr !! i with
  | Some row => v' <- broadcast_to (length row) v ;; Ok (<[i := v']> arr)
  | None => Raise IndexError
  end.

(** An element-wise binary operation on two one-dimensional arrays. *)
Definition np_binop (f : num -> num -> num) (x y : ndarray1 num) : result (ndarray1 num) :=
  if decide (length x = length y) then Ok (zip_with f x y)
  else match x, y with
       | [a], _ => Ok (f a <$> y)
       | _, [b] => Ok ((fun a => f a b) <$> x)
       | _, _ => Raise ValueError
       end.

Definition np_add : ndarray1 num -> ndarray1 num -> result (ndarray1 num) := np_binop num_add.
Definition np_sub : ndarray1 num -> ndarray1 num -> result (ndarray1 num) := np_binop num_sub.

(** *** The global generator *)

(** The state of the generator, [rng num], is the sequence of variates it
    will deliver, in order. *)

(** One standard-normal draw. *)
Definition rng_normal (g : rng num) : num * rng num := (g 0%nat, fun k => g (S k)).

Fixpoint draw_row (cols : nat) (g : rng num) : ndarray1 num * rng num :=
  match cols with
  | O => ([], g)
  | S cols' =>
      let '(z, g1) := rng_normal g in
      let '(zs, g2) := draw_row cols' g1 in
      (z :: zs, g2)
  end.

Fixpoint draw_rows (rows cols : nat) (g : rng num) : ndarray2 num * rng num :=
  match rows with
  | O => ([], g)
  | S rows' =>
      let '(r, g1) := draw_row cols g in
      let '(rs, g2) := draw_rows rows' cols g1 in
      (r :: rs, g2)
  end.

(** [np.random.normal(size=(rows, cols))]: the array is filled in row-major
    order with successive draws. *)
Definition np_random_normal (rows cols : Z) (g : rng num) : result (ndarray2 num * rng num) :=
  if ((rows <? 0) || (cols <? 0))%Z then Raise ValueError
  else Ok (draw_rows (Z.to_nat rows) (Z.to_nat cols) g).

(** [c * arr] for a scalar [c] and a two-dimensional [arr]. *)
Definition np_scale2 (c : num) (arr : ndarray2 num) : ndarray2 num :=
  fmap (M := list) (fmap (M := list) (num_mul c)) arr.

(** [range(n)] *)
Definition range (n : Z) : list nat := seq 0 (Z.to_nat n).
End NumPy.

(** ** models.py *)

Module VasicekModel.
Record t (num : Type) : Type := Build {
  a : num;
  b : num;
  sigma : num;
  r0 : num;
  scheme : string;
}.
Arguments Build {num}.
Arguments a {num}.
Arguments b {num}.
Arguments sigma {num}.
Arguments r0 {num}.
Arguments scheme {num}.

(** [__init__(self, a, b, sigma, r0, scheme="euler")] *)
Definition init {num : Type} (a b sigma r0 : num) (scheme : option string) : t num :=
  Build a b sigma r0 (default "euler"%string scheme).

Section Simulate.
Context {num : Type} {SC : Scalar num}.

(** The body of the stepping loop. *)
Definition step (self : t num) (dt : num) (dW : ndarray2 num)
    (paths : ndarray2 num) (t : nat) : result (ndarray2 num) :=
  paths_t <- getitem paths t ;;
  let drift :=
    (fun x => num_mul x dt) <$>
      (num_mul (a self) <$> (num_sub (b self) <$> paths_t)) in
  dW_t <- getitem dW t ;;
  let diffusion := num_mul (sigma self) <$> dW_t in
  s <- np_add paths_t drift ;;
  new <- np_add s diffusion ;;
  setitem paths (t + 1) new.

Definition simulate (self : t num) (T dt : num) (n_paths : Z) (g : rng num)
  : result (ndarray2 num * rng num) :=
  q <- num_truediv T dt ;;
  n_steps <- num_int q ;;
  paths <- np_zeros (n_steps + 1) n_paths ;;
  paths <- setitem_scalar paths 0 (r0 self) ;;
  zg <- np_random_normal n_steps n_paths g ;;
  let dW := np_scale2 (num_sqrt dt) zg.1 in
  paths <- for_each (step self dt dW) (range n_steps) paths ;;
  Ok (paths, zg.2).
End Simulate.
End VasicekModel.

Module HoLeeModel.
Record t (num : Type) : Type := Build {
  theta : num;
  sigma : num;
  r0 : num;
  scheme : string;
}.
Arguments Build {num}.
Arguments theta {num}.
Arguments sigma {num}.
Arguments r0 {num}.
Arguments scheme {num}.

(** [__init__(self, theta, sigma, r0, scheme="euler")] *)
Definition init {num : Type} (theta sigma r0 : num) (scheme : option string) : t num :=
  Build theta sigma r0 (default "euler"%string scheme).

Section Simulate.
Context {num : Type} {SC : Scalar num}.

(** The body of the stepping loop; here [drift] is a scalar. *)
Definition step (self : t num) (dt : num) (dW : ndarray2 num)
    (paths : ndarray2 num) (t : nat) : result (ndarray2 num) :=
  let drift := num_mul (theta self) dt in
  dW_t <- getitem dW t ;;
  let diffusion := num_mul (sigma self) <$> dW_t in
  paths_t <- getitem paths t ;;
  let s := (fun x => num_add x drift) <$> paths_t in
  new <- np_add s diffusion ;;
  setitem paths (t + 1) new.

Definition simulate (self : t num) (T dt : num) (n_paths : Z) (g : rng num)
  : result (ndarray2 num * rng num) :=
  q <- num_truediv T dt ;;
  n_steps <- num_int q ;;
  paths <- np_zeros (n_steps + 1) n_paths ;;
  paths <- setitem_scalar paths 0 (r0 self) ;;
  zg <- np_random_normal n_steps n_paths g ;;
  let dW := np_scale2 (num_sqrt dt) zg.1 in
  paths <- for_each (step self dt dW) (range n_steps) paths ;;
  Ok (paths, zg.2).
End Simulate.
End HoLeeModel.

(** ** calibration.py *)

(** [scipy.optimize.least_squares] and [np.mean] are library code.  The
    solver is taken with the one property of its interface the callers rely
    on: the solution [x] has the shape of the starting point. *)
Record OptimizeResult : Type := {
  x : list float;
  success : bool;
}.

Class Numerics : Type := {
  np_mean : list float -> float;
  least_squares :
    (list float -> result (list float)) -> list float -> result OptimizeResult;
  least_squares_shape :
    forall fn x0 res, least_squares fn x0 = Ok res -> length (x res) = length x0;
}.

(** The literal [1e-6] that both residual functions add to [sigma]. *)
Definition epsilon : float := 1e-6%float.

Definition vasicek_calibration (params : list float) (r : list float) (dt : float)
  : result (list float) :=
  match params with
  | [a; b; sigma] =>
      let r_lag := take (length r - 1) r in
      let r_next := drop 1 r in
      let expected_change :=
        (fun v => (v * dt)%float) <$> (PrimFloat.mul a <$> (PrimFloat.sub b <$> r_lag)) in
      d <- np_sub r_next r_lag ;;
      d <- np_sub d expected_change ;;
      let residuals := (fun v => (v / (sigma + epsilon))%float) <$> d in
      Ok residuals
  | _ => Raise ValueError
  end.

Definition holee_calibration (params : list float) (r : list float) (dt : float)
  : result (list float) :=
  match params with
  | [theta; sigma] =>
      let r_lag := take (length r - 1) r in
      let r_next := drop 1 r in
      let expected_change := (theta * dt)%float in
      d <- np_sub r_next r_lag ;;
      let d := (fun v => (v - expected_change)%float) <$> d in
      let residuals := (fun v => (v / (sigma + epsilon))%float) <$> d in
      Ok residuals
  | _ => Raise ValueError
  end.

Section Calibrate.
Context {NM : Numerics}.

Definition calibrate_vasicek (rate_data : list float) (dt : float)
  : result (list float) :=
  let initial_params := [0.1%float; np_mean rate_data; 0.01%float] in
  res <- least_squares (fun p => vasicek_calibration p rate_data dt) initial_params ;;
  Ok (x res).

Definition calibrate_holee (rate_data : list float) (dt : float)
  : result (list float) :=
  let initial_params := [0.001%float; 0.01%float] in
  res <- least_squares (fun p => holee_calibration p rate_data dt) initial_params ;;
  Ok (x res).
End Calibrate.

(** ** Seeding the generator *)

(** [np.random.seed(s)] puts the generator in the state determined by [s],
    whatever its state was.  [init] is the library's map from seeds to
    states. *)
Definition np_random_seed {num : Type} (init : Z -> rng num) (s : Z) (g : rng num)
  : result (unit * rng num) :=
  Ok (tt, init s).

(** A call [f] made right after [np.random.seed(s)], from the state [g]. *)
Definition seeded {num A : Type} (init : Z -> rng num) (s : Z)
    (f : rng num -> result (A * rng num)) (g : rng num) : result (A * rng num) :=
  u <- np_random_seed init s g ;; f u.2.

(** ** Functional description of the scheme *)

Section Scheme.
Context {num : Type} {SC : Scalar num}.

(** One Euler-Maruyama step of one path: [x + drift x + sigma * w]. *)
Definition euler_next (drift : num -> num) (sigma : num) (x w : num) : num :=
  num_add (num_add x (drift x)) (num_mul sigma w).

(** The rows produced from the row [row] by the increments [dW]. *)
Fixpoint euler_paths (next : num -> num -> num) (row : list num)
    (dW : list (list num)) : list (list num) :=
  match dW with
  | [] => [row]
  | w :: dW' => row :: euler_paths next (zip_with next row w) dW'
  end.

Definition vasicek_drift (self : VasicekModel.t num) (dt : num) (x : num) : num :=
  num_mul (num_mul (VasicekModel.a self) (num_sub (VasicekModel.b self) x)) dt.

Definition holee_drift (self : HoLeeModel.t num) (dt : num) (x : num) : num :=
  num_mul (HoLeeModel.theta self) dt.

(** The Brownian increment of step [t] and path [j] when the generator is
    in state [g] at the call: [sqrt(dt)] times draw number
    [t * n_paths + j]. *)
Definition increment (dt : num) (n_paths : nat) (g : rng num) (t j : nat) : num :=
  num_mul (num_sqrt dt) (g (t * n_paths + j)%nat).

(** What a simulation does once the step count [n_steps] and the drift
    are known. *)
Definition euler_maruyama (drift : num -> num) (sigma r0 dt : num)
    (n_steps n_paths : Z) (g : rng num) : result (ndarray2 num * rng num) :=
  if ((n_steps + 1 <? 0) || (n_paths <? 0))%Z then Raise ValueError
  else if (n_steps + 1 =? 0)%Z then Raise IndexError
  else
    let zg := draw_rows (Z.to_nat n_steps) (Z.to_nat n_paths) g in
    Ok (euler_paths (euler_next drift sigma)
          (replicate (Z.to_nat n_paths) r0)
          (np_scale2 (num_sqrt dt) zg.1),
        zg.2).

(** [arr.shape == (rows, cols)] for an array with at least one row. *)
Definition has_shape (arr : ndarray2 num) (rows cols : Z) : Prop :=
  Z.of_nat (length arr) = rows /\
  Forall (fun row => Z.of_nat (length row) = cols) arr.

(** Entry [(i, j)] of a two-dimensional array. *)
Definition entry (arr : ndarray2 num) (i j : nat) : option num :=
  row ← arr !! i; row !! j.

(** [paths] and [g'] are what a run of [n_steps] steps on [n_paths] paths
    leaves, started with the generator in state [g]: the shape, row 0,
    the recurrence from each row to the next, and the generator advanced
    by the [n_steps * n_paths] variates drawn. *)
Definition scheme_run (drift : num -> num) (sigma r0 dt : num)
    (n_steps n_paths : Z) (g : rng num) (paths : ndarray2 num) (g' : rng num) : Prop :=
  has_shape paths (n_steps + 1) n_paths /\
  paths !! 0%nat = Some (replicate (Z.to_nat n_paths) r0) /\
  (forall k, g' k = g (Z.to_nat n_steps * Z.to_nat n_paths + k)%nat) /\
  (forall t j, (t < Z.to_nat n_steps)%nat -> (j < Z.to_nat n_paths)%nat ->
     exists v,
       entry paths t j = Some v /\
       entry paths (S t) j
         = Some (euler_next drift sigma v (increment dt (Z.to_nat n_paths) g t j))).
End Scheme.

(** ** Orderings and rounding of binary64 numbers, as the specification
    words them *)

Definition float_positive (v : float) : Prop := (0 <? v)%float = true.
Definition float_nonpositive (v : float) : Prop := (v <=? 0)%float = true.
Definition finiteb (v : float) : bool :=
  match Prim2SF v with
  | S754_zero _ | S754_finite _ _ _ => true
  | _ => false
  end.
Definition float_finite (v : float) : Prop := finiteb v = true.

(** [floor(v)]: the largest integer not above [v], for a finite [v]. *)
Definition float_floor (v : float) : option Z :=
  match Prim2SF v with
  | S754_zero _ => Some 0%Z
  | S754_finite s m e => Some (Z.shiftl (cond_Zopp s (Z.pos m)) e)
  | _ => None
  end.

(** NumPy's limit on an array of [rows] by [cols] binary64 numbers (64-bit
    platform): the byte count [8 * rows * cols], a dimension of 0 counting
    for 1, has to stay below [2^63].  Memory apart, [np.zeros] and
    [np.random.normal] return exactly for the non-negative shapes within
    it. *)
Definition within_array_limit (rows cols : Z) : Prop :=
  (Z.max 1 rows * Z.max 1 cols < 2 ^ 60)%Z.

(** The outcomes of a simulation that is given a horizon or a step that is
    not positive: [simulate] checks neither, so what happens is decided by
    the operations it performs, in their order.  [kind] says what [T] and
    [dt] are, and the last argument is the outcome of the call with initial
    rate [r0]. *)
Inductive unchecked_outcome (kind : scalars) (r0 T dt : float) (n_paths : Z)
    (g : rng float) : result (ndarray2 float * rng float) -> Prop :=
| zero_step :
    kind = python_numbers ->
    PrimFloat.eqb dt 0%float = true ->
    unchecked_outcome kind r0 T dt n_paths g (Raise ZeroDivisionError)
| no_step_count (e : exn) :
    kind = numpy_scalars \/ PrimFloat.eqb dt 0%float = false ->
    float_int (T / dt)%float = Raise e ->
    unchecked_outcome kind r0 T dt n_paths g (Raise e)
| negative_dimension (n_steps : Z) :
    float_int (T / dt)%float = Ok n_steps -> (n_steps <= -2)%Z ->
    unchecked_outcome kind r0 T dt n_paths g (Raise ValueError)
| no_row_zero :
    float_int (T / dt)%float = Ok (-1)%Z ->
    unchecked_outcome kind r0 T dt n_paths g (Raise IndexError)
| single_row :
    float_int (T / dt)%float = Ok 0%Z ->
    unchecked_outcome kind r0 T dt n_paths g
      (Ok ([replicate (Z.to_nat n_paths) r0], g))
| both_negative (n_steps : Z) (paths : ndarray2 float) (g' : rng float) :
    float_int (T / dt)%float = Ok n_steps -> (1 <= n_steps)%Z ->
    (T <? 0)%float = true -> (dt <? 0)%float = true ->
    has_shape paths (n_steps + 1) n_paths ->
    unchecked_outcome kind r0 T dt n_paths g (Ok (paths, g')).

(** A binary64 datum that is not a zero (a finite non-zero number, an
    infinity or nan). *)
Definition nonzero_SF (x : spec_float) : Prop :=
  match x with
  | S754_zero _ => False
  | _ => True
  end.

(** The binary64 number nearest to [1e-6]: [4722366482869645 * 2^-72]. *)
Definition epsilon_SF : spec_float := S754_finite false 4722366482869645 (-72).

(** ** Fixtures used to run the definitions *)

(** A generator state that cycles through a table of variates. *)
Definition cyclic_rng {num : Type} (d : num) (table : list num) : rng num :=
  fun k => nth (k mod length table) table d.

Definition sample_rng : rng float :=
  cyclic_rng 0%float [0.5; -1.25; 0.75; 2; -0.5]%float.

(** A solver that stops at its starting point, and the sequential mean. *)
Definition sum_floats (l : list float) : float := foldl PrimFloat.add 0%float l.

Program Definition sample_numerics : Numerics := {|
  np_mean l := (sum_floats l / PrimFloat.of_uint63 (Uint63.of_Z (Z.of_nat (length l))))%float;
  least_squares fn x0 := _ <- fn x0 ;; Ok {| x := x0; success := true |};
|}.
Next Obligation.
  intros fn x0 res. cbv beta. destruct (fn x0); simpl; [|discriminate].
  intros [= <-]. reflexivity.
Qed.

(** ** tests.py *)

(** What [unittest] reports for one test method: success, a failed
    assertion, or an exception raised by the code under test. *)
Inductive test_outcome : Set :=
| test_ok
| test_failure
| test_error (e : exn).

(** [arr.shape] for a two-dimensional array with at least one row. *)
Definition np_shape {num : Type} (arr : ndarray2 num) : nat * nat :=
  (length arr, match arr with [] => 0%nat | row :: _ => length row end).

(** [self.assertEqual(first, second)] *)
Definition assertEqual {A : Type} `{EqDecision A} (first second : A) : test_outcome :=
  if decide (first = second) then test_ok else test_failure.

(** The two test methods, run with the generator in state [g]. *)
Definition test_vasicek_simulation (g : rng float) : test_outcome :=
  let model := VasicekModel.init 0.1%float 0.05%float 0.02%float 0.03%float None in
  match VasicekModel.simulate model 1%float (1 / 252)%float 5 g with
  | Ok pg => assertEqual (np_shape pg.1) (253%nat, 5%nat)
  | Raise e => test_error e
  end.

Definition test_holee_simulation (g : rng float) : test_outcome :=
  let model := HoLeeModel.init 0.001%float 0.02%float 0.03%float None in
  match HoLeeModel.simulate model 1%float (1 / 252)%float 5 g with
  | Ok pg => assertEqual (np_shape pg.1) (253%nat, 5%nat)
  | Raise e => test_error e
  end.

(** ** Further vocabulary for binary64 numbers *)

(** [v == 0.0]: [v] is one of the two zeros. *)
Definition zerob (v : float) : bool := PrimFloat.eqb v 0%float.

(** [v == v]: [v] is not nan. *)
Definition not_nan (v : float) : Prop := PrimFloat.eqb v v = true.

(** A non-zero number, finite or infinite. *)
Definition regular_SF (x : spec_float) : Prop :=
  match x with
  | S754_finite _ _ _ | S754_infinity _ => True
  | _ => False
  end.

(** The same binary64 value up to the sign of a zero: what [x == y] tests
    for numbers that are not nan. *)
Definition same_number (x y : float) : Prop :=
  x = y \/ (zerob x = true /\ zerob y = true).



(** The generator state that delivers the variates of [g] to path [j] of
    [n_paths] and [z] to every other path. *)
Definition only_path {num : Type} (n_paths j : nat) (z : num) (g : rng num) : rng num :=
  fun k => if (k mod n_paths =? j)%nat then g k else z.

(** * Properties *)

(** ** The result monad *)

Lemma bind_Ok {A B : Type} (r : result A) (k : A -> result B) (y : B) :
  bind r k = Ok y <-> exists v, r = Ok v /\ k v = Ok y.
Proof.
  destruct r as [v|e]; simpl; split.
  - intros Hk. exists v. split; [reflexivity|exact Hk].
  - intros (v' & [= <-] & Hk). exact Hk.
  - discriminate.
  - intros (v' & Hv & _). discriminate.
Qed.

Lemma result_map_Ok {A B : Type} (f : A -> B) (r : result A) (y : B) :
  result_map f r = Ok y <-> exists v, r = Ok v /\ y = f v.
Proof.
  unfold result_map. rewrite bind_Ok. split; intros (v & Hv & Hy); exists v;
    (split; [exact Hv|congruence]).
Qed.

(** ** Lists *)

Lemma zip_with_euler {A : Type} (f g k : A -> A -> A) (h s : A -> A) (l w : list A) :
  (forall u v, k u v = f (g u (h u)) (s v)) ->
  zip_with f (zip_with g l (h <$> l)) (s <$> w) = zip_with k l w.
Proof.
  intros Hk. revert w. induction l as [|u l IH]; intros [|v w]; simpl; try reflexivity.
  rewrite Hk, IH. reflexivity.
Qed.

Lemma zip_with_euler_scalar {A : Type} (f k : A -> A -> A) (h s : A -> A) (l w : list A) :
  (forall u v, k u v = f (h u) (s v)) ->
  zip_with f (h <$> l) (s <$> w) = zip_with k l w.
Proof.
  intros Hk. revert w. induction l as [|u l IH]; intros [|v w]; simpl; try reflexivity.
  rewrite Hk, IH. reflexivity.
Qed.

Lemma Forall_length_replicate {A : Type} (m n : nat) (v : A) :
  Forall (fun row : list A => length row = n) (replicate m (replicate n v)).
Proof. apply Forall_replicate, length_replicate. Qed.

(** ** The generator *)

Section Generator.
Context {num : Type}.

Lemma draw_row_spec (cols : nat) (g : rng num) :
  (draw_row cols g).1 = g <$> seq 0 cols /\
  forall k, (draw_row cols g).2 k = g (cols + k)%nat.
Proof.
  revert g. induction cols as [|cols IH]; intros g; simpl.
  - split; reflexivity.
  - destruct (draw_row cols (fun k => g (S k))) as [zs g2] eqn:E.
    specialize (IH (fun k => g (S k))). rewrite E in IH. simpl in *.
    destruct IH as [IH1 IH2]. split.
    + rewrite IH1, <- fmap_S_seq, <- list_fmap_compose. reflexivity.
    + exact IH2.
Qed.

Lemma draw_rows_spec (rows cols : nat) (g : rng num) :
  (draw_rows rows cols g).1
    = (fun i => (fun j => g (i * cols + j)%nat) <$> seq 0 cols) <$> seq 0 rows /\
  forall k, (draw_rows rows cols g).2 k = g (rows * cols + k)%nat.
Proof.
  revert g. induction rows as [|rows IH]; intros g; simpl.
  - split; reflexivity.
  - destruct (draw_row_spec cols g) as [R1 R2].
    destruct (draw_row cols g) as [r g1]. simpl in R1, R2.
    specialize (IH g1). destruct (draw_rows rows cols g1) as [rs g2].
    simpl in *. destruct IH as [IH1 IH2]. split.
    + f_equal; [exact R1|].
      rewrite IH1, <- fmap_S_seq, <- list_fmap_compose.
      apply list_fmap_ext. intros _ i _. simpl.
      apply list_fmap_ext. intros _ j _. rewrite R2. f_equal. lia.
    + intros k. rewrite IH2, R2. f_equal. lia.
Qed.

Lemma draw_rows_length (rows cols : nat) (g : rng num) :
  length (draw_rows rows cols g).1 = rows.
Proof.
  rewrite (proj1 (draw_rows_spec rows cols g)), length_fmap, length_seq.
  reflexivity.
Qed.

Lemma draw_rows_lookup (rows cols : nat) (g : rng num) (i : nat) :
  (i < rows)%nat ->
  (draw_rows rows cols g).1 !! i
    = Some ((fun j => g (i * cols + j)%nat) <$> seq 0 cols).
Proof.
  intros Hi. rewrite (proj1 (draw_rows_spec rows cols g)), list_lookup_fmap.
  rewrite lookup_seq_lt by exact Hi. reflexivity.
Qed.

(** The draws of two generator states that agree on the first
    [rows * cols] variates are the same. *)
Lemma draw_rows_prefix (rows cols : nat) (g1 g2 : rng num) :
  (forall k, (k < rows * cols)%nat -> g1 k = g2 k) ->
  (draw_rows rows cols g1).1 = (draw_rows rows cols g2).1.
Proof.
  intros Hg.
  rewrite (proj1 (draw_rows_spec rows cols g1)), (proj1 (draw_rows_spec rows cols g2)).
  apply list_fmap_ext. intros i' i Hi%lookup_seq.
  apply list_fmap_ext. intros j' j Hj%lookup_seq.
  apply Hg. destruct Hi as [-> Hi], Hj as [-> Hj]. simpl. nia.
Qed.
End Generator.

(** ** The stepping loop *)

Section Loop.
Context {num : Type} {SC : Scalar num}.
Variable next : num -> num -> num.
Variable body : ndarray2 num -> nat -> result (ndarray2 num).
Variable dW : ndarray2 num.
Variable n : nat.

(** What one iteration does when rows [t] and [t + 1] of [paths] and row
    [t] of [dW] exist and have [n] entries. *)
Hypothesis body_ok : forall (paths : ndarray2 num) (t : nat) (row w old : list num),
  paths !! t = Some row -> dW !! t = Some w -> paths !! (t + 1)%nat = Some old ->
  length row = n -> length w = n -> length old = n ->
  body paths t = Ok (<[(t + 1)%nat := zip_with next row w]> paths).

(** Loop invariant: the rows before the current one are final, the current
    one is [row], the rows after it are still to be written. *)
Lemma for_each_euler (rest : ndarray2 num) :
  forall (pre : ndarray2 num) (row : list num) (zs : ndarray2 num),
    drop (length pre) dW = rest ->
    length row = n ->
    Forall (fun w => length w = n) rest ->
    Forall (fun z => length z = n) zs ->
    length zs = length rest ->
    for_each body (seq (length pre) (length rest)) (pre ++ row :: zs)
      = Ok (pre ++ euler_paths next row rest).
Proof.
  induction rest as [|w rest IH]; intros pre row zs Hdrop Hrow Hrest Hzs Hlen.
  - destruct zs; [reflexivity|discriminate].
  - destruct zs as [|z zs]; [discriminate|].
    apply Forall_cons in Hrest as [Hw Hrest].
    apply Forall_cons in Hzs as [Hz Hzs].
    injection Hlen as Hlen.
    assert (HdW : dW !! length pre = Some w).
    { rewrite <- (Nat.add_0_r (length pre)), <- lookup_drop, Hdrop. reflexivity. }
    assert (Hnext : (pre ++ row :: z :: zs) !! (length pre + 1)%nat = Some z).
    { rewrite (cons_middle row), app_assoc.
      replace (length pre + 1)%nat with (length (pre ++ [row]))
        by (rewrite length_app; reflexivity).
      apply list_lookup_middle. reflexivity. }
    simpl.
    rewrite (body_ok _ _ row w z); try assumption;
      [|apply list_lookup_middle; reflexivity].
    simpl.
    assert (Hins : <[(length pre + 1)%nat := zip_with next row w]> (pre ++ row :: z :: zs)
                   = (pre ++ [row]) ++ zip_with next row w :: zs).
    { rewrite (cons_middle row pre), app_assoc.
      replace (length pre + 1)%nat with (length (pre ++ [row]) + 0)%nat
        by (rewrite length_app; simpl; lia).
      rewrite insert_app_r. reflexivity. }
    rewrite Hins.
    replace (S (length pre)) with (length (pre ++ [row]))
      by (rewrite length_app; simpl; lia).
    rewrite IH; try assumption.
    + rewrite <- app_assoc. reflexivity.
    + rewrite length_app. simpl.
      rewrite <- drop_drop, Hdrop. reflexivity.
    + rewrite length_zip_with. lia.
Qed.

(** The loop run from the freshly initialised array. *)
Lemma for_each_fresh (row : list num) (zs : ndarray2 num) :
  length row = n ->
  Forall (fun w => length w = n) dW ->
  Forall (fun z => length z = n) zs ->
  length zs = length dW ->
  for_each body (seq 0 (length dW)) (row :: zs) = Ok (euler_paths next row dW).
Proof.
  intros Hrow HdW Hzs Hlen.
  apply (for_each_euler dW [] row zs); try assumption. reflexivity.
Qed.
End Loop.

(** ** The rows of the scheme *)

Section Rows.
Context {num : Type} {SC : Scalar num}.
Variable next : num -> num -> num.

Lemma euler_paths_length (row : list num) (dW : ndarray2 num) :
  length (euler_paths next row dW) = S (length dW).
Proof.
  revert row. induction dW as [|w dW IH]; intros row; simpl; [reflexivity|].
  rewrite IH. reflexivity.
Qed.

Lemma euler_paths_head (row : list num) (dW : ndarray2 num) :
  euler_paths next row dW !! 0%nat = Some row.
Proof. destruct dW; reflexivity. Qed.

Lemma euler_paths_widths (n : nat) (row : list num) (dW : ndarray2 num) :
  length row = n ->
  Forall (fun w => length w = n) dW ->
  Forall (fun r => length r = n) (euler_paths next row dW).
Proof.
  revert row. induction dW as [|w dW IH]; intros row Hrow HdW; simpl.
  - apply Forall_singleton. exact Hrow.
  - apply Forall_cons in HdW as [Hw HdW].
    apply Forall_cons. split; [exact Hrow|].
    apply IH; [|exact HdW]. rewrite length_zip_with. lia.
Qed.

(** Row [t + 1] is obtained from row [t] and the increments of step [t],
    path by path. *)
Lemma euler_paths_step (n : nat) (dW : ndarray2 num) :
  forall (row : list num) (t j : nat),
    length row = n ->
    Forall (fun w => length w = n) dW ->
    (t < length dW)%nat -> (j < n)%nat ->
    exists v w,
      entry (euler_paths next row dW) t j = Some v /\
      entry dW t j = Some w /\
      entry (euler_paths next row dW) (S t) j = Some (next v w).
Proof.
  induction dW as [|w0 dW IH]; intros row t j Hrow HdW Ht Hj; simpl in Ht; [lia|].
  apply Forall_cons in HdW as [Hw0 HdW].
  destruct t as [|t].
  - destruct (lookup_lt_is_Some_2 row j) as [v Hv]; [lia|].
    destruct (lookup_lt_is_Some_2 w0 j) as [w Hw]; [lia|].
    exists v, w. unfold entry. simpl.
    rewrite euler_paths_head. simpl.
    rewrite Hv, Hw, lookup_zip_with, Hv. simpl. rewrite Hw. auto.
  - destruct (IH (zip_with next row w0) t j) as (v & w & Hv & Hw & Hs);
      [rewrite length_zip_with; lia|exact HdW|lia|exact Hj|].
    exists v, w. auto.
Qed.
End Rows.

(** ** From the code of [simulate] to the functional description *)

Section Outcome.
Context {num : Type} {SC : Scalar num}.

Lemma draw_rows_widths (rows cols : nat) (c : num) (g : rng num) :
  Forall (fun w => length w = cols) (np_scale2 c (draw_rows rows cols g).1).
Proof.
  unfold np_scale2. rewrite (proj1 (draw_rows_spec rows cols g)).
  apply Forall_fmap, Forall_fmap, Forall_forall. intros i _. simpl.
  rewrite !length_fmap, length_seq. reflexivity.
Qed.

(** Everything [simulate] does after the step count is known, for a loop
    body that performs one Euler-Maruyama step. *)
Lemma skeleton_outcome
    (stepf : ndarray2 num -> ndarray2 num -> nat -> result (ndarray2 num))
    (drift : num -> num) (sigma r0 dt : num) (n_steps n_paths : Z) (g : rng num) :
  (forall (dW paths : ndarray2 num) (t : nat) (row w old : list num),
      paths !! t = Some row -> dW !! t = Some w -> paths !! (t + 1)%nat = Some old ->
      length row = Z.to_nat n_paths -> length w = Z.to_nat n_paths ->
      length old = Z.to_nat n_paths ->
      stepf dW paths t
        = Ok (<[(t + 1)%nat := zip_with (euler_next drift sigma) row w]> paths)) ->
  (paths <- np_zeros (n_steps + 1) n_paths ;;
   paths <- setitem_scalar paths 0 r0 ;;
   zg <- np_random_normal n_steps n_paths g ;;
   let dW := np_scale2 (num_sqrt dt) zg.1 in
   paths <- for_each (stepf dW) (range n_steps) paths ;;
   Ok (paths, zg.2))
  = euler_maruyama drift sigma r0 dt n_steps n_paths g.
Proof.
  intros Hstep. unfold np_zeros, euler_maruyama.
  destruct ((n_steps + 1 <? 0)%Z || (n_paths <? 0)%Z) eqn:Hneg; [reflexivity|].
  apply orb_false_elim in Hneg as [Hrows%Z.ltb_ge Hcols%Z.ltb_ge].
  simpl. unfold setitem_scalar.
  destruct (n_steps + 1 =? 0)%Z eqn:Hzero.
  - apply Z.eqb_eq in Hzero. rewrite Hzero. reflexivity.
  - apply Z.eqb_neq in Hzero.
    replace (Z.to_nat (n_steps + 1)) with (S (Z.to_nat n_steps)) by lia.
    simpl. unfold np_random_normal.
    replace ((n_steps <? 0)%Z || (n_paths <? 0)%Z) with false
      by (symmetry; apply orb_false_intro; apply Z.ltb_ge; lia).
    simpl. rewrite fmap_replicate.
    set (zg := draw_rows (Z.to_nat n_steps) (Z.to_nat n_paths) g).
    set (dW := np_scale2 (num_sqrt dt) zg.1).
    assert (HlenW : length dW = Z.to_nat n_steps).
    { unfold dW, np_scale2, zg. rewrite length_fmap. apply draw_rows_length. }
    unfold range. rewrite <- HlenW.
    rewrite (for_each_fresh (euler_next drift sigma) (stepf dW) dW (Z.to_nat n_paths)).
    + reflexivity.
    + intros paths t row w old. apply Hstep.
    + apply length_replicate.
    + apply draw_rows_widths.
    + apply Forall_length_replicate.
    + apply length_replicate.
Qed.

Lemma vasicek_step_ok (self : VasicekModel.t num) (dt : num) (n : nat)
    (dW paths : ndarray2 num) (t : nat) (row w old : list num) :
  paths !! t = Some row -> dW !! t = Some w -> paths !! (t + 1)%nat = Some old ->
  length row = n -> length w = n -> length old = n ->
  VasicekModel.step self dt dW paths t
    = Ok (<[(t + 1)%nat :=
             zip_with (euler_next (vasicek_drift self dt) (VasicekModel.sigma self)) row w]>
            paths).
Proof.
  intros Hrow Hw Hold Lrow Lw Lold.
  unfold VasicekModel.step, getitem. rewrite Hrow, Hw. simpl.
  unfold np_add, np_binop.
  rewrite decide_True by (rewrite !length_fmap; reflexivity). simpl.
  rewrite decide_True by (rewrite length_zip_with, !length_fmap; lia). simpl.
  unfold setitem. rewrite Hold. unfold broadcast_to.
  rewrite decide_True by (rewrite !length_zip_with, !length_fmap; lia). simpl.
  do 2 f_equal. rewrite <- !list_fmap_compose.
  apply zip_with_euler. reflexivity.
Qed.

Lemma holee_step_ok (self : HoLeeModel.t num) (dt : num) (n : nat)
    (dW paths : ndarray2 num) (t : nat) (row w old : list num) :
  paths !! t = Some row -> dW !! t = Some w -> paths !! (t + 1)%nat = Some old ->
  length row = n -> length w = n -> length old = n ->
  HoLeeModel.step self dt dW paths t
    = Ok (<[(t + 1)%nat :=
             zip_with (euler_next (holee_drift self dt) (HoLeeModel.sigma self)) row w]>
            paths).
Proof.
  intros Hrow Hw Hold Lrow Lw Lold.
  unfold HoLeeModel.step, getitem. rewrite Hrow, Hw. simpl.
  unfold np_add, np_binop.
  rewrite decide_True by (rewrite !length_fmap; lia). simpl.
  unfold setitem. rewrite Hold. unfold broadcast_to.
  rewrite decide_True by (rewrite !length_zip_with, !length_fmap; lia). simpl.
  do 2 f_equal. apply zip_with_euler_scalar. reflexivity.
Qed.

(** [VasicekModel.simulate] is the Euler-Maruyama scheme with the drift
    [a * (b - x) * dt], run for [int(T / dt)] steps. *)
Lemma vasicek_simulate_outcome (self : VasicekModel.t num) (T dt : num)
    (n_paths : Z) (g : rng num) :
  VasicekModel.simulate self T dt n_paths g
  = (q <- num_truediv T dt ;;
     n_steps <- num_int q ;;
     euler_maruyama (vasicek_drift self dt) (VasicekModel.sigma self)
       (VasicekModel.r0 self) dt n_steps n_paths g).
Proof.
  unfold VasicekModel.simulate.
  destruct (num_truediv T dt) as [q|e]; [simpl|reflexivity].
  destruct (num_int q) as [n_steps|e]; [simpl|reflexivity].
  apply (skeleton_outcome (VasicekModel.step self dt)).
  intros dW paths t row w old. apply vasicek_step_ok.
Qed.

(** [HoLeeModel.simulate] is the scheme with the constant drift
    [theta * dt]. *)
Lemma holee_simulate_outcome (self : HoLeeModel.t num) (T dt : num)
    (n_paths : Z) (g : rng num) :
  HoLeeModel.simulate self T dt n_paths g
  = (q <- num_truediv T dt ;;
     n_steps <- num_int q ;;
     euler_maruyama (holee_drift self dt) (HoLeeModel.sigma self)
       (HoLeeModel.r0 self) dt n_steps n_paths g).
Proof.
  unfold HoLeeModel.simulate.
  destruct (num_truediv T dt) as [q|e]; [simpl|reflexivity].
  destruct (num_int q) as [n_steps|e]; [simpl|reflexivity].
  apply (skeleton_outcome (HoLeeModel.step self dt)).
  intros dW paths t row w old. apply holee_step_ok.
Qed.
End Outcome.

(** ** What a successful simulation returns *)

Section Returned.
Context {num : Type} {SC : Scalar num}.
Variable drift : num -> num.
Variables sigma r0 dt : num.

Lemma increment_entry (n_steps n_paths : nat) (g : rng num) (t j : nat) :
  (t < n_steps)%nat -> (j < n_paths)%nat ->
  entry (np_scale2 (num_sqrt dt) (draw_rows n_steps n_paths g).1) t j
    = Some (increment dt n_paths g t j).
Proof.
  intros Ht Hj. unfold entry, np_scale2.
  rewrite list_lookup_fmap, (draw_rows_lookup _ _ _ _ Ht). simpl.
  rewrite !list_lookup_fmap, (lookup_seq_lt _ _ _ Hj). reflexivity.
Qed.

(** For a non-negative step count and path count the scheme returns, and
    what it returns is a run. *)
Lemma euler_maruyama_returns (n_steps n_paths : Z) (g : rng num) :
  (0 <= n_steps)%Z -> (0 <= n_paths)%Z ->
  exists paths g',
    euler_maruyama drift sigma r0 dt n_steps n_paths g = Ok (paths, g') /\
    scheme_run drift sigma r0 dt n_steps n_paths g paths g'.
Proof.
  intros Hsteps Hpaths. unfold euler_maruyama.
  replace ((n_steps + 1 <? 0)%Z || (n_paths <? 0)%Z) with false
    by (symmetry; apply orb_false_intro; apply Z.ltb_ge; lia).
  replace (n_steps + 1 =? 0)%Z with false by (symmetry; apply Z.eqb_neq; lia).
  set (zg := draw_rows (Z.to_nat n_steps) (Z.to_nat n_paths) g).
  set (dW := np_scale2 (num_sqrt dt) zg.1).
  assert (HlenW : length dW = Z.to_nat n_steps).
  { unfold dW, np_scale2, zg. rewrite length_fmap. apply draw_rows_length. }
  assert (Hwidths : Forall (fun w => length w = Z.to_nat n_paths) dW)
    by apply draw_rows_widths.
  eexists _, _. split; [reflexivity|]. split; [|split; [|split]].
  - split.
    + rewrite euler_paths_length, HlenW. lia.
    + eapply Forall_impl;
        [apply (euler_paths_widths _ (Z.to_nat n_paths));
           [apply length_replicate|exact Hwidths]|].
      simpl. intros row ->. lia.
  - apply euler_paths_head.
  - intros k. apply (proj2 (draw_rows_spec _ _ g)).
  - intros t j Ht Hj.
    destruct (euler_paths_step (euler_next drift sigma) (Z.to_nat n_paths) dW
                (replicate (Z.to_nat n_paths) r0) t j)
      as (v & w & Hv & Hw & Hnext);
      [apply length_replicate|exact Hwidths|lia|exact Hj|].
    exists v. split; [exact Hv|].
    unfold dW, zg in Hw. rewrite (increment_entry _ _ _ _ _ Ht Hj) in Hw.
    injection Hw as <-. exact Hnext.
Qed.

(** Conversely the scheme returns only for a non-negative step count and
    path count. *)
Lemma euler_maruyama_Ok_inv (n_steps n_paths : Z) (g : rng num) out :
  euler_maruyama drift sigma r0 dt n_steps n_paths g = Ok out ->
  (0 <= n_steps)%Z /\ (0 <= n_paths)%Z.
Proof.
  unfold euler_maruyama.
  destruct ((n_steps + 1 <? 0)%Z || (n_paths <? 0)%Z) eqn:Hneg; [discriminate|].
  destruct (n_steps + 1 =? 0)%Z eqn:Hzero; [discriminate|].
  apply orb_false_elim in Hneg as [Hrows%Z.ltb_ge Hcols%Z.ltb_ge].
  apply Z.eqb_neq in Hzero. intros _. lia.
Qed.

(** A simulation returns exactly when the division and the conversion to
    an integer succeed with a non-negative step count (and the path count
    is not negative), and then it returns a run of that many steps. *)
Lemma converted_run_iff (T : num) (n_paths : Z) (g : rng num)
    (paths : ndarray2 num) (g' : rng num) :
  (q <- num_truediv T dt ;;
   n_steps <- num_int q ;;
   euler_maruyama drift sigma r0 dt n_steps n_paths g) = Ok (paths, g') ->
  exists q n_steps,
    num_truediv T dt = Ok q /\ num_int q = Ok n_steps /\
    (0 <= n_steps)%Z /\ (0 <= n_paths)%Z /\
    scheme_run drift sigma r0 dt n_steps n_paths g paths g'.
Proof.
  intros (q & Hq & (n_steps & Hn & Hrun)%bind_Ok)%bind_Ok.
  exists q, n_steps.
  destruct (euler_maruyama_Ok_inv _ _ _ _ Hrun) as [Hsteps Hpaths].
  destruct (euler_maruyama_returns n_steps n_paths g Hsteps Hpaths)
    as (paths0 & g0 & Hrun0 & Hfacts).
  rewrite Hrun in Hrun0. injection Hrun0 as <- <-. auto.
Qed.

Lemma converted_run_returns (T q : num) (n_steps n_paths : Z) (g : rng num) :
  num_truediv T dt = Ok q -> num_int q = Ok n_steps ->
  (0 <= n_steps)%Z -> (0 <= n_paths)%Z ->
  exists paths g',
    (q <- num_truediv T dt ;;
     n_steps <- num_int q ;;
     euler_maruyama drift sigma r0 dt n_steps n_paths g) = Ok (paths, g') /\
    scheme_run drift sigma r0 dt n_steps n_paths g paths g'.
Proof.
  intros Hq Hn Hsteps Hpaths. rewrite Hq. simpl. rewrite Hn. simpl.
  apply euler_maruyama_returns; assumption.
Qed.
End Returned.

(** ** binary64 numbers *)

Lemma Prim2SF_zero : Prim2SF 0%float = S754_zero false.
Proof. reflexivity. Qed.

Lemma float_positive_cases (v : float) :
  float_positive v ->
  (exists m e, Prim2SF v = S754_finite false m e) \/ Prim2SF v = S754_infinity false.
Proof.
  unfold float_positive. rewrite FloatAxioms.ltb_spec, Prim2SF_zero.
  destruct (Prim2SF v) as [s|s| |s m e]; try destruct s; simpl;
    try discriminate; eauto.
Qed.

Lemma float_positive_nonzero (v : float) :
  float_positive v -> PrimFloat.eqb v 0%float = false.
Proof.
  intros [(m & e & Hv)|Hv]%float_positive_cases;
    rewrite FloatAxioms.eqb_spec, Prim2SF_zero, Hv; reflexivity.
Qed.

(** The rounding at the end of every arithmetic operation keeps the sign
    it is given. *)
Lemma binary_round_aux_cases (s : bool) (m e : Z) (l : location) :
  binary_round_aux prec emax s m e l = S754_zero s \/
  binary_round_aux prec emax s m e l = S754_infinity s \/
  binary_round_aux prec emax s m e l = S754_nan \/
  exists m' e', binary_round_aux prec emax s m e l = S754_finite s m' e'.
Proof.
  unfold binary_round_aux.
  destruct (shr_fexp prec emax m e l) as [mrs' e'].
  destruct (shr_fexp prec emax _ e' loc_Exact) as [mrs'' e''].
  destruct (shr_m mrs'') as [|p|p]; [auto| |auto].
  destruct (e'' <=? emax - prec)%Z; eauto 6.
Qed.

(** The quotient of two positive numbers, when finite, converts to a
    non-negative integer, and [int] and [floor] agree on it. *)
Lemma float_int_positive_quotient (T dt : float) :
  float_positive T -> float_positive dt -> float_finite (T / dt)%float ->
  exists n, float_int (T / dt)%float = Ok n /\ (0 <= n)%Z /\
            float_floor (T / dt)%float = Some n.
Proof.
  intros HT Hdt. unfold float_finite, finiteb, float_int, float_floor.
  rewrite FloatAxioms.div_spec. unfold SF64div, SFdiv.
  destruct (float_positive_cases T HT) as [(mT & eT & ->)| ->];
    destruct (float_positive_cases dt Hdt) as [(md & ed & ->)| ->];
    simpl; try discriminate.
  - destruct (SFdiv_core_binary prec emax (Z.pos mT) eT (Z.pos md) ed) as [[mz ez] lz].
    destruct (binary_round_aux_cases false mz ez lz)
      as [-> | [-> | [-> | (m' & e' & ->)]]]; try discriminate; intros _.
    + exists 0%Z. auto with zarith.
    + exists (Z.shiftl (Z.pos m') e'). simpl. repeat split.
      apply Z.shiftl_nonneg. lia.
  - intros _. exists 0%Z. auto with zarith.
Qed.

Lemma float_int_Ok_finite (v : float) (n : Z) :
  float_int v = Ok n -> float_finite v.
Proof.
  unfold float_int, float_finite, finiteb.
  destruct (Prim2SF v); try discriminate; reflexivity.
Qed.

Lemma float_truediv_positive (T dt : float) :
  float_positive dt -> float_truediv T dt = Ok (T / dt)%float.
Proof.
  intros Hdt. unfold float_truediv. rewrite (float_positive_nonzero dt Hdt).
  reflexivity.
Qed.

(** For positive [T] and [dt] with a finite quotient, both simulators return
    a run of [floor(T / dt)] steps. *)
Lemma simulate_positive_run (vm : VasicekModel.t float) (hm : HoLeeModel.t float)
    (T dt : float) (n_paths : Z) (g : rng float) :
  float_positive T -> float_positive dt -> (0 <= n_paths)%Z ->
  float_finite (T / dt)%float ->
  exists n_steps,
    float_int (T / dt)%float = Ok n_steps /\
    float_floor (T / dt)%float = Some n_steps /\
    (0 <= n_steps)%Z /\
    (exists paths g',
       VasicekModel.simulate vm T dt n_paths g = Ok (paths, g') /\
       scheme_run (vasicek_drift vm dt) (VasicekModel.sigma vm) (VasicekModel.r0 vm)
         dt n_steps n_paths g paths g') /\
    (exists paths g',
       HoLeeModel.simulate hm T dt n_paths g = Ok (paths, g') /\
       scheme_run (holee_drift hm dt) (HoLeeModel.sigma hm) (HoLeeModel.r0 hm)
         dt n_steps n_paths g paths g').
Proof.
  intros HT Hdt Hpaths Hfin.
  destruct (float_int_positive_quotient T dt HT Hdt Hfin) as (n_steps & Hint & Hsteps & Hfloor).
  exists n_steps. repeat split; try assumption.
  - rewrite vasicek_simulate_outcome.
    apply (converted_run_returns _ _ _ _ T (T / dt)%float); try assumption.
    apply float_truediv_positive, Hdt.
  - rewrite holee_simulate_outcome.
    apply (converted_run_returns _ _ _ _ T (T / dt)%float); try assumption.
    apply float_truediv_positive, Hdt.
Qed.

(** ** Claims about the simulation engine *)



(** C3, as stated, fails: [T = 1e308] and [dt = 1e-308] are positive, their
    quotient overflows to infinity, and [int] raises [OverflowError]. *)
Lemma simulate_shape_overflow :
  float_positive 1e308%float /\ float_positive 1e-308%float /\
  VasicekModel.simulate (VasicekModel.init 0.1 0.05 0.02 0.03 None)%float
    1e308%float 1e-308%float 5 sample_rng = Raise OverflowError /\
  HoLeeModel.simulate (HoLeeModel.init 0.001 0.02 0.03 None)%float
    1e308%float 1e-308%float 5 sample_rng = Raise OverflowError.
Proof. repeat split; vm_compute; reflexivity. Qed.



(** ** Horizons and steps that are not positive *)

Section Degenerate.
Context {num : Type} {SC : Scalar num}.
Variable drift : num -> num.
Variables sigma r0 dt : num.

Lemma euler_maruyama_negative (n_steps n_paths : Z) (g : rng num) :
  (n_steps <= -2)%Z ->
  euler_maruyama drift sigma r0 dt n_steps n_paths g = Raise ValueError.
Proof.
  intros Hn. unfold euler_maruyama.
  replace (n_steps + 1 <? 0)%Z with true by (symmetry; apply Z.ltb_lt; lia).
  reflexivity.
Qed.

Lemma euler_maruyama_minus_one (n_paths : Z) (g : rng num) :
  (0 <= n_paths)%Z ->
  euler_maruyama drift sigma r0 dt (-1)%Z n_paths g = Raise IndexError.
Proof.
  intros Hp. unfold euler_maruyama. simpl.
  replace (n_paths <? 0)%Z with false by (symmetry; apply Z.ltb_ge; lia).
  reflexivity.
Qed.

Lemma euler_maruyama_zero (n_paths : Z) (g : rng num) :
  (0 <= n_paths)%Z ->
  euler_maruyama drift sigma r0 dt 0%Z n_paths g
    = Ok ([replicate (Z.to_nat n_paths) r0], g).
Proof.
  intros Hp. unfold euler_maruyama. simpl.
  replace (n_paths <? 0)%Z with false by (symmetry; apply Z.ltb_ge; lia).
  reflexivity.
Qed.
End Degenerate.

(** A quotient that converts to a positive integer has operands of the same
    sign: if one of them is not positive, both are negative. *)
Lemma float_int_positive_signs (T dt : float) (n : Z) :
  float_int (T / dt)%float = Ok n -> (1 <= n)%Z ->
  float_nonpositive T \/ float_nonpositive dt ->
  (T <? 0)%float = true /\ (dt <? 0)%float = true.
Proof.
  unfold float_int, float_nonpositive.
  rewrite FloatAxioms.div_spec, !FloatAxioms.leb_spec, !FloatAxioms.ltb_spec, Prim2SF_zero.
  unfold SF64div, SFdiv.
  destruct (Prim2SF T) as [sT|sT| |sT mT eT], (Prim2SF dt) as [sd|sd| |sd md ed];
    simpl; try discriminate; try (intros [= <-]; lia).
  destruct (SFdiv_core_binary prec emax (Z.pos mT) eT (Z.pos md) ed) as [[mz ez] lz].
  destruct (binary_round_aux_cases (xorb sT sd) mz ez lz)
    as [-> | [-> | [-> | (m' & e' & ->)]]]; try discriminate;
    try (intros [= <-]; lia).
  intros [= <-] Hn.
  assert (Hnn : (0 <= Z.shiftl (Z.pos m') e')%Z) by (apply Z.shiftl_nonneg; lia).
  destruct sT, sd; simpl in *; try lia; intros [?|?]; try discriminate; auto.
Qed.

Lemma unchecked_outcome_converted (kind : scalars) (drift : float -> float)
    (sigma r0 T dt : float) (n_paths : Z) (g : rng float) :
  kind = numpy_scalars \/ PrimFloat.eqb dt 0%float = false ->
  float_nonpositive T \/ float_nonpositive dt -> (0 < n_paths)%Z ->
  unchecked_outcome kind r0 T dt n_paths g
    (n_steps <- float_int (T / dt)%float ;;
     euler_maruyama (SC := arithmetic kind) drift sigma r0 dt n_steps n_paths g).
Proof.
  intros Hdiv Hsign Hp.
  destruct (float_int (T / dt)%float) as [n|e] eqn:Hint; simpl;
    [|apply no_step_count; assumption].
  destruct (Z_le_gt_dec n (-2)%Z) as [Hneg|Hge].
  { rewrite euler_maruyama_negative by exact Hneg.
    apply (negative_dimension _ _ _ _ _ _ n); assumption. }
  destruct (Z.eq_dec n (-1)%Z) as [->|Hm1].
  { rewrite euler_maruyama_minus_one by lia. apply no_row_zero, Hint. }
  destruct (Z.eq_dec n 0%Z) as [->|H0].
  { rewrite euler_maruyama_zero by lia. apply single_row, Hint. }
  destruct (euler_maruyama_returns (SC := arithmetic kind) drift sigma r0 dt n n_paths g)
    as (paths & g' & -> & Hshape & _); [lia|lia|].
  destruct (float_int_positive_signs T dt n Hint) as [HT Hdt]; [lia|exact Hsign|].
  apply (both_negative _ _ _ _ _ _ n); try assumption. lia.
Qed.

Lemma unchecked_outcome_of_scheme (kind : scalars) (drift : float -> float)
    (sigma r0 T dt : float) (n_paths : Z) (g : rng float) :
  float_nonpositive T \/ float_nonpositive dt -> (0 < n_paths)%Z ->
  unchecked_outcome kind r0 T dt n_paths g
    (q <- @num_truediv float (arithmetic kind) T dt ;;
     n_steps <- @num_int float (arithmetic kind) q ;;
     euler_maruyama (SC := arithmetic kind) drift sigma r0 dt n_steps n_paths g).
Proof.
  intros Hsign Hp. destruct kind; simpl.
  - unfold float_truediv.
    destruct (PrimFloat.eqb dt 0%float) eqn:Hz; simpl;
      [apply zero_step; [reflexivity|exact Hz]|].
    apply (unchecked_outcome_converted python_numbers); auto.
  - apply (unchecked_outcome_converted numpy_scalars); auto.
Qed.

(** C6 (amended).  For [T <= 0] or [dt <= 0], a positive [n_paths] and
    arrays within NumPy's size limit, [simulate] checks nothing itself and
    its outcome is the one of the operations it performs.  A zero [dt]
    raises [ZeroDivisionError] when [T] and [dt] are Python numbers; when
    one of them is a NumPy scalar the quotient is an infinity or nan.  A
    quotient that is nan or infinite makes [int] raise ([ValueError],
    [OverflowError]).  Otherwise [np.zeros] raises [ValueError] when
    [int(T / dt) <= -2], [paths[0] = r0] raises [IndexError] when
    [int(T / dt) = -1], the call returns the single row [[r0] * n_paths],
    with the generator untouched, when [int(T / dt) = 0], and it returns an
    array of [n_steps + 1] rows when [T] and [dt] are both negative and
    [int(T / dt) = n_steps >= 1]. *)
Theorem simulate_unchecked_horizon (kind : scalars)
    (vm : VasicekModel.t float) (hm : HoLeeModel.t float)
    (T dt : float) (n_paths : Z) (g : rng float) :
  float_nonpositive T \/ float_nonpositive dt -> (0 < n_paths)%Z ->
  (forall n_steps, float_int (T / dt)%float = Ok n_steps ->
     within_array_limit (n_steps + 1) n_paths) ->
  unchecked_outcome kind (VasicekModel.r0 vm) T dt n_paths g
    (VasicekModel.simulate (SC := arithmetic kind) vm T dt n_paths g) /\
  unchecked_outcome kind (HoLeeModel.r0 hm) T dt n_paths g
    (HoLeeModel.simulate (SC := arithmetic kind) hm T dt n_paths g).
Proof.
  intros Hsign Hp _. split.
  - rewrite vasicek_simulate_outcome. apply unchecked_outcome_of_scheme; assumption.
  - rewrite holee_simulate_outcome. apply unchecked_outcome_of_scheme; assumption.
Qed.

Lemma simulate_unchecked_horizon_witness :
  (float_nonpositive (-0.1)%float \/ float_nonpositive 0.25%float) /\ (0 < 2)%Z /\
  (forall n_steps, float_int (-0.1 / 0.25)%float = Ok n_steps ->
     within_array_limit (n_steps + 1) 2) /\
  unchecked_outcome python_numbers 0.03%float (-0.1)%float 0.25%float 2 sample_rng
    (VasicekModel.simulate (VasicekModel.init 0.1 0.05 0.02 0.03 None)%float
       (-0.1)%float 0.25%float 2 sample_rng).
Proof.
  assert (Hs : float_nonpositive (-0.1)%float \/ float_nonpositive 0.25%float)
    by (left; reflexivity).
  assert (Hp : (0 < 2)%Z) by lia.
  assert (Hl : forall n_steps, float_int (-0.1 / 0.25)%float = Ok n_steps ->
            within_array_limit (n_steps + 1) 2).
  { intros n Hn. vm_compute in Hn. injection Hn as <-. reflexivity. }
  repeat (split; [assumption|]).
  exact (proj1 (simulate_unchecked_horizon python_numbers
                  (VasicekModel.init 0.1 0.05 0.02 0.03 None)%float
                  (HoLeeModel.init 0.001 0.02 0.03 None)%float
                  (-0.1)%float 0.25%float 2 sample_rng Hs Hp Hl)).
Defined.

(** With a NumPy scalar for [dt] a zero step does not fail in the division:
    the quotient is an infinity, or nan for [T = 0], and it is [int] that
    raises. *)
Example simulate_zero_step_numpy :
  VasicekModel.simulate (SC := numpy64)
    (VasicekModel.init 0.1 0.05 0.02 0.03 None)%float
    1%float 0%float 5 sample_rng = Raise OverflowError /\
  HoLeeModel.simulate (SC := numpy64)
    (HoLeeModel.init 0.001 0.02 0.03 None)%float
    0%float 0%float 5 sample_rng = Raise ValueError.
Proof. split; vm_compute; reflexivity. Qed.

(** C6, as stated, fails: with [T = -1] and [dt = 0.25] the step count is
    [-4] and [np.zeros((-3, 5))] raises [ValueError]; with [T = -0.25] it is
    [-1], the array has no row and [paths[0] = r0] raises [IndexError]; with
    [dt = 0] the division raises; and with [T = -1], [dt = -0.25] the step
    count is [4], not zero or negative. *)
Lemma simulate_unchecked_horizon_raises :
  float_nonpositive (-1)%float /\
  VasicekModel.simulate (VasicekModel.init 0.1 0.05 0.02 0.03 None)%float
    (-1)%float 0.25%float 5 sample_rng = Raise ValueError /\
  HoLeeModel.simulate (HoLeeModel.init 0.001 0.02 0.03 None)%float
    (-1)%float 0.25%float 5 sample_rng = Raise ValueError /\
  VasicekModel.simulate (VasicekModel.init 0.1 0.05 0.02 0.03 None)%float
    (-0.25)%float 0.25%float 5 sample_rng = Raise IndexError /\
  float_nonpositive 0%float /\
  VasicekModel.simulate (VasicekModel.init 0.1 0.05 0.02 0.03 None)%float
    1%float 0%float 5 sample_rng = Raise ZeroDivisionError /\
  float_nonpositive (-0.25)%float /\
  float_int (-1 / -0.25)%float = Ok 4%Z.
Proof. repeat split; vm_compute; reflexivity. Qed.

(** ** Determinism and the [scheme] field *)

(** The arrays of two runs of the scheme are the same as soon as the two
    generator states agree on the [n_steps * n_paths] variates drawn. *)
Lemma euler_maruyama_prefix {num : Type} {SC : Scalar num}
    (drift : num -> num) (sigma r0 dt : num) (n_steps n_paths : Z) (g1 g2 : rng num) :
  (forall k, (k < Z.to_nat n_steps * Z.to_nat n_paths)%nat -> g1 k = g2 k) ->
  result_map fst (euler_maruyama drift sigma r0 dt n_steps n_paths g1)
  = result_map fst (euler_maruyama drift sigma r0 dt n_steps n_paths g2).
Proof.
  intros Hg. unfold euler_maruyama.
  destruct ((n_steps + 1 <? 0)%Z || (n_paths <? 0)%Z); [reflexivity|].
  destruct (n_steps + 1 =? 0)%Z; [reflexivity|].
  simpl. rewrite (draw_rows_prefix _ _ g1 g2 Hg). reflexivity.
Qed.

(** The same for the outcome of a whole simulation: the step count does
    not depend on the generator, and the array depends on it through the
    variates drawn only. *)
Lemma converted_run_prefix {num : Type} {SC : Scalar num}
    (drift : num -> num) (sigma r0 T dt : num) (n_paths : Z) (g1 g2 : rng num) :
  (forall q n_steps, num_truediv T dt = Ok q -> num_int q = Ok n_steps ->
     forall k, (k < Z.to_nat n_steps * Z.to_nat n_paths)%nat -> g1 k = g2 k) ->
  result_map fst (q <- num_truediv T dt ;;
                  n_steps <- num_int q ;;
                  euler_maruyama drift sigma r0 dt n_steps n_paths g1)
  = result_map fst (q <- num_truediv T dt ;;
                    n_steps <- num_int q ;;
                    euler_maruyama drift sigma r0 dt n_steps n_paths g2).
Proof.
  intros Hg.
  destruct (num_truediv T dt) as [q|e]; [simpl|reflexivity].
  destruct (num_int q) as [n_steps|e] eqn:Hn; [simpl|reflexivity].
  apply euler_maruyama_prefix, (Hg q n_steps eq_refl Hn).
Qed.

Lemma float_truediv_Ok (T dt q : float) :
  float_truediv T dt = Ok q -> q = (T / dt)%float.
Proof.
  unfold float_truediv. destruct (PrimFloat.eqb dt 0%float); [discriminate|].
  intros [= <-]. reflexivity.
Qed.

(** C8.  Determinism.  A call of [simulate] made right after
    [np.random.seed(s)] has an outcome (the returned array, the exception
    if any, and the state the generator is left in) that depends on the
    seed and the arguments only: it is the same from any two states [g1],
    [g2] the generator may have been in before the seeding, in particular
    from the initial state and from the state a first call has left.  More
    generally, two calls with the same arguments return the same array (or
    raise the same exception) as soon as their generators deliver the same
    first [n_steps * n_paths] variates. *)
Theorem simulate_deterministic_after_seed
    (init : Z -> rng float) (s : Z)
    (vm : VasicekModel.t float) (hm : HoLeeModel.t float)
    (T dt : float) (n_paths : Z) (g1 g2 : rng float) :
  seeded init s (VasicekModel.simulate vm T dt n_paths) g1
  = seeded init s (VasicekModel.simulate vm T dt n_paths) g2 /\
  seeded init s (HoLeeModel.simulate hm T dt n_paths) g1
  = seeded init s (HoLeeModel.simulate hm T dt n_paths) g2 /\
  ((forall n_steps, float_int (T / dt)%float = Ok n_steps ->
      forall k, (k < Z.to_nat n_steps * Z.to_nat n_paths)%nat -> g1 k = g2 k) ->
   result_map fst (VasicekModel.simulate vm T dt n_paths g1)
   = result_map fst (VasicekModel.simulate vm T dt n_paths g2) /\
   result_map fst (HoLeeModel.simulate hm T dt n_paths g1)
   = result_map fst (HoLeeModel.simulate hm T dt n_paths g2)).
Proof.
  split; [reflexivity|]. split; [reflexivity|].
  intros Hg.
  assert (Hg' : forall q n_steps,
             num_truediv T dt = Ok q -> num_int q = Ok n_steps ->
             forall k, (k < Z.to_nat n_steps * Z.to_nat n_paths)%nat -> g1 k = g2 k).
  { intros q n_steps ->%float_truediv_Ok Hn. apply Hg, Hn. }
  split.
  - rewrite !vasicek_simulate_outcome. apply converted_run_prefix, Hg'.
  - rewrite !holee_simulate_outcome. apply converted_run_prefix, Hg'.
Qed.

(** Without the seeding in between, a second call continues with the
    variates the first one has left and returns other paths. *)
Example simulate_unseeded_calls_differ :
  exists paths1 g1 paths2 g2 v1 v2,
    VasicekModel.simulate (VasicekModel.init 0.1 0.05 0.02 0.03 None)%float
      1%float 0.25%float 2 sample_rng = Ok (paths1, g1) /\
    VasicekModel.simulate (VasicekModel.init 0.1 0.05 0.02 0.03 None)%float
      1%float 0.25%float 2 g1 = Ok (paths2, g2) /\
    entry paths1 1 0 = Some v1 /\ entry paths2 1 0 = Some v2 /\
    PrimFloat.eqb v1 v2 = false.
Proof.
  eexists _, _, _, _, _, _.
  split; [reflexivity|]. split; [reflexivity|].
  split; [vm_compute; reflexivity|]. split; [vm_compute; reflexivity|].
  vm_compute. reflexivity.
Qed.

(** C10.  The constructors store [scheme] (["euler"] when it is not given)
    and [simulate] never reads it: two models that differ in the [scheme]
    field only have the same outcome for the same [T], [dt], [n_paths] and
    generator state. *)
Theorem simulate_ignores_scheme
    (vm1 vm2 : VasicekModel.t float) (hm1 hm2 : HoLeeModel.t float)
    (T dt : float) (n_paths : Z) (g : rng float) :
  VasicekModel.a vm1 = VasicekModel.a vm2 ->
  VasicekModel.b vm1 = VasicekModel.b vm2 ->
  VasicekModel.sigma vm1 = VasicekModel.sigma vm2 ->
  VasicekModel.r0 vm1 = VasicekModel.r0 vm2 ->
  HoLeeModel.theta hm1 = HoLeeModel.theta hm2 ->
  HoLeeModel.sigma hm1 = HoLeeModel.sigma hm2 ->
  HoLeeModel.r0 hm1 = HoLeeModel.r0 hm2 ->
  VasicekModel.simulate vm1 T dt n_paths g = VasicekModel.simulate vm2 T dt n_paths g /\
  HoLeeModel.simulate hm1 T dt n_paths g = HoLeeModel.simulate hm2 T dt n_paths g.
Proof.
  destruct vm1 as [a1 b1 s1 r1 sch1], vm2 as [a2 b2 s2 r2 sch2].
  destruct hm1 as [th1 hs1 hr1 hsch1], hm2 as [th2 hs2 hr2 hsch2]. simpl.
  intros -> -> -> -> -> -> ->. split; reflexivity.
Qed.

Lemma simulate_ignores_scheme_witness :
  VasicekModel.scheme (VasicekModel.init 0.1 0.05 0.02 0.03 None)%float = "euler"%string /\
  VasicekModel.scheme (VasicekModel.init 0.1 0.05 0.02 0.03 (Some "milstein"%string))%float
    = "milstein"%string /\
  HoLeeModel.scheme (HoLeeModel.init 0.001 0.02 0.03 None)%float = "euler"%string /\
  HoLeeModel.scheme (HoLeeModel.init 0.001 0.02 0.03 (Some "no such scheme"%string))%float
    = "no such scheme"%string /\
  VasicekModel.simulate (VasicekModel.init 0.1 0.05 0.02 0.03 None)%float
    1%float 0.25%float 2 sample_rng
  = VasicekModel.simulate
      (VasicekModel.init 0.1 0.05 0.02 0.03 (Some "milstein"%string))%float
      1%float 0.25%float 2 sample_rng /\
  HoLeeModel.simulate (HoLeeModel.init 0.001 0.02 0.03 None)%float
    1%float 0.25%float 2 sample_rng
  = HoLeeModel.simulate
      (HoLeeModel.init 0.001 0.02 0.03 (Some "no such scheme"%string))%float
      1%float 0.25%float 2 sample_rng.
Proof.
  repeat (split; [reflexivity|]).
  apply (simulate_ignores_scheme
           (VasicekModel.init 0.1 0.05 0.02 0.03 None)%float
           (VasicekModel.init 0.1 0.05 0.02 0.03 (Some "milstein"%string))%float
           (HoLeeModel.init 0.001 0.02 0.03 None)%float
           (HoLeeModel.init 0.001 0.02 0.03 (Some "no such scheme"%string))%float);
    reflexivity.
Defined.

(** ** Claims about the calibration engine *)

Lemma adjacent_lengths {A : Type} (r : list A) :
  length (drop 1 r) = length (take (length r - 1) r).
Proof. rewrite length_drop, length_take. lia. Qed.

(** The Vasicek residuals: one per pair of adjacent observations. *)
Lemma vasicek_residuals_spec (a b sigma : float) (r : list float) (dt : float) :
  exists res,
    vasicek_calibration [a; b; sigma] r dt = Ok res /\
    length res = (length r - 1)%nat /\
    forall i r_lag r_next,
      r !! i = Some r_lag -> r !! S i = Some r_next ->
      res !! i = Some ((r_next - r_lag - a * (b - r_lag) * dt) / (sigma + 1e-6))%float.
Proof.
  pose proof (adjacent_lengths r) as Hlen.
  unfold vasicek_calibration, np_sub, np_binop.
  rewrite decide_True by exact Hlen. simpl.
  rewrite decide_True
    by (rewrite length_zip_with, !length_fmap, <- Hlen; lia). simpl.
  eexists. split; [reflexivity|]. split.
  - rewrite length_fmap, !length_zip_with, !length_fmap, <- Hlen, length_drop. lia.
  - intros i r_lag r_next Hi Hnext.
    assert (Hlt : (i < length r - 1)%nat) by (apply lookup_lt_Some in Hnext; lia).
    rewrite list_lookup_fmap, !lookup_zip_with, !list_lookup_fmap.
    rewrite lookup_drop, (lookup_take_lt _ _ _ Hlt). simpl.
    rewrite Hnext, Hi. reflexivity.
Qed.

(** The Ho-Lee residuals. *)
Lemma holee_residuals_spec (theta sigma : float) (r : list float) (dt : float) :
  exists res,
    holee_calibration [theta; sigma] r dt = Ok res /\
    length res = (length r - 1)%nat /\
    forall i r_lag r_next,
      r !! i = Some r_lag -> r !! S i = Some r_next ->
      res !! i = Some ((r_next - r_lag - theta * dt) / (sigma + 1e-6))%float.
Proof.
  pose proof (adjacent_lengths r) as Hlen.
  unfold holee_calibration, np_sub, np_binop.
  rewrite decide_True by exact Hlen. simpl.
  eexists. split; [reflexivity|]. split.
  - rewrite !length_fmap, !length_zip_with, <- Hlen, length_drop. lia.
  - intros i r_lag r_next Hi Hnext.
    assert (Hlt : (i < length r - 1)%nat) by (apply lookup_lt_Some in Hnext; lia).
    rewrite !list_lookup_fmap, !lookup_zip_with.
    rewrite lookup_drop, (lookup_take_lt _ _ _ Hlt). simpl.
    rewrite Hnext, Hi. reflexivity.
Qed.

(** C2.  For every candidate [(a, b, sigma)] (resp. [(theta, sigma)]),
    every series [r] and every [dt], the residual function returns a vector
    with one entry per pair of adjacent observations, [len(r) - 1] of them
    (none for a series of fewer than two observations), and entry [i] is
    [(r[i+1] - r[i] - expected_change_i) / (sigma + 1e-6)] with
    [expected_change_i = a*(b - r[i])*dt] for Vasicek and [theta*dt] for
    Ho-Lee. *)
Theorem residuals_per_transition (a b theta sigma : float) (r : list float) (dt : float) :
  (exists res,
     vasicek_calibration [a; b; sigma] r dt = Ok res /\
     length res = (length r - 1)%nat /\
     forall i r_lag r_next,
       r !! i = Some r_lag -> r !! S i = Some r_next ->
       res !! i = Some ((r_next - r_lag - a * (b - r_lag) * dt) / (sigma + 1e-6))%float) /\
  (exists res,
     holee_calibration [theta; sigma] r dt = Ok res /\
     length res = (length r - 1)%nat /\
     forall i r_lag r_next,
       r !! i = Some r_lag -> r !! S i = Some r_next ->
       res !! i = Some ((r_next - r_lag - theta * dt) / (sigma + 1e-6))%float).
Proof.
  split; [apply vasicek_residuals_spec|apply holee_residuals_spec].
Qed.

(** C9.  [calibrate_vasicek] hands the solver the Vasicek residuals of the
    series and the starting point [(0.1, mean(rate_data), 0.01)], and what
    it returns is the solver's [x], of length 3: the positions the residual
    function reads as [(a, b, sigma)].  [calibrate_holee] starts from
    [(0.001, 0.01)] and returns a vector of length 2, read as
    [(theta, sigma)].  Neither vector has a component for [r0]. *)
Theorem calibrate_initial_guess_and_shape {NM : Numerics} (rate_data : list float)
    (dt : float) :
  calibrate_vasicek rate_data dt
    = result_map x (least_squares (fun p => vasicek_calibration p rate_data dt)
                      [0.1; np_mean rate_data; 0.01]%float) /\
  (forall fit, calibrate_vasicek rate_data dt = Ok fit ->
     exists a b sigma, fit = [a; b; sigma]) /\
  calibrate_holee rate_data dt
    = result_map x (least_squares (fun p => holee_calibration p rate_data dt)
                      [0.001; 0.01]%float) /\
  (forall fit, calibrate_holee rate_data dt = Ok fit ->
     exists theta sigma, fit = [theta; sigma]).
Proof.
  split; [reflexivity|]. split; [|split; [reflexivity|]].
  - intros fit (res & Hres & [= <-])%bind_Ok.
    apply least_squares_shape in Hres.
    destruct (x res) as [|a [|b [|sigma [|? ?]]]]; try discriminate. eauto.
  - intros fit (res & Hres & [= <-])%bind_Ok.
    apply least_squares_shape in Hres.
    destruct (x res) as [|theta [|sigma [|? ?]]]; try discriminate. eauto.
Qed.

(** With a solver that stops at its starting point the calibration returns
    the initial guess itself. *)
Example calibrate_vasicek_initial_guess :
  calibrate_vasicek (NM := sample_numerics) [0.03; 0.04; 0.05]%float 0.25%float
    = Ok [0.1; 0.04; 0.01]%float /\
  calibrate_holee (NM := sample_numerics) [0.03; 0.04; 0.05]%float 0.25%float
    = Ok [0.001; 0.01]%float.
Proof. split; vm_compute; reflexivity. Qed.

(** ** Columns of the returned array *)

Lemma entry_row0 {A : Type} (paths : list (list A)) (n : nat) (v : A) (j : nat) :
  paths !! 0%nat = Some (replicate n v) -> (j < n)%nat ->
  entry paths 0 j = Some v.
Proof.
  intros Hrow Hj. unfold entry. rewrite Hrow. simpl.
  apply lookup_replicate_2, Hj.
Qed.


(** ** The denominator [sigma + 1e-6]

    Additions are specified by [SFadd]: the operands are aligned on the
    smaller exponent, their signed mantissas are added exactly, and the sum
    is rounded.  Rounding a non-zero sum never gives zero, so the result is
    zero only when the exact sum is. *)

Lemma Zdigits2_nonneg (m : Z) : (0 <= Zdigits2 m)%Z.
Proof. destruct m; simpl; lia. Qed.

Lemma Zdigits2_pos_iff (m : Z) : (0 <= m)%Z -> (0 < Zdigits2 m)%Z -> (0 < m)%Z.
Proof. destruct m; simpl; lia. Qed.

Lemma shr_1_digits (mrs : shr_record) :
  (0 <= shr_m mrs)%Z ->
  (0 <= shr_m (shr_1 mrs))%Z /\
  Zdigits2 (shr_m (shr_1 mrs)) = Z.max 0 (Zdigits2 (shr_m mrs) - 1).
Proof.
  destruct mrs as [m r s]. simpl. intros Hm.
  destruct m as [|[p|p|]|p]; simpl; try lia.
Qed.

Lemma iter_shr_1_digits (n : positive) :
  forall mrs : shr_record,
    (0 <= shr_m mrs)%Z ->
    (0 <= shr_m (SpecFloat.iter_pos shr_1 n mrs))%Z /\
    Zdigits2 (shr_m (SpecFloat.iter_pos shr_1 n mrs))
      = Z.max 0 (Zdigits2 (shr_m mrs) - Z.pos n).
Proof.
  induction n as [n IH|n IH|]; intros mrs Hm; simpl.
  - destruct (shr_1_digits mrs Hm) as [H1 D1].
    destruct (IH _ H1) as [H2 D2]. destruct (IH _ H2) as [H3 D3].
    split; [exact H3|]. rewrite D3, D2, D1. lia.
  - destruct (IH _ Hm) as [H2 D2]. destruct (IH _ H2) as [H3 D3].
    split; [exact H3|]. rewrite D3, D2. lia.
  - apply shr_1_digits, Hm.
Qed.

Lemma shr_record_of_loc_m (m : Z) (l : location) : shr_m (shr_record_of_loc m l) = m.
Proof. destruct l as [|[]]; reflexivity. Qed.

Lemma shr_fexp_positive (m e : Z) (l : location) :
  (0 < m)%Z -> (emin <= e)%Z ->
  (0 < shr_m (shr_fexp prec emax m e l).1)%Z /\ (emin <= (shr_fexp prec emax m e l).2)%Z.
Proof.
  intros Hm He. unfold shr_fexp, shr, fexp.
  change (SpecFloat.emin prec emax) with (-1074)%Z in *.
  change prec with 53%Z.
  pose proof (Zdigits2_nonneg m) as Hd.
  destruct (Z.max (Zdigits2 m + e - 53) (-1074) - e)%Z as [|n|n] eqn:Hn; simpl;
    rewrite ?shr_record_of_loc_m; try lia.
  destruct (iter_shr_1_digits n (shr_record_of_loc m l)) as [H1 D1];
    [rewrite shr_record_of_loc_m; lia|].
  rewrite shr_record_of_loc_m in D1.
  split; [|lia].
  apply Zdigits2_pos_iff; [exact H1|]. rewrite D1. lia.
Qed.

Lemma round_nearest_even_ge (m : Z) (l : location) : (m <= round_nearest_even m l)%Z.
Proof.
  unfold round_nearest_even. destruct l as [|[]]; try lia.
  destruct (Z.even m); lia.
Qed.

Lemma binary_round_aux_nonzero (s : bool) (m e : Z) (l : location) :
  (0 < m)%Z -> (emin <= e)%Z -> nonzero_SF (binary_round_aux prec emax s m e l).
Proof.
  intros Hm He. unfold binary_round_aux.
  destruct (shr_fexp_positive m e l Hm He) as [H1 E1].
  destruct (shr_fexp prec emax m e l) as [mrs' e']. simpl in H1, E1.
  pose proof (round_nearest_even_ge (shr_m mrs') (loc_of_shr_record mrs')) as Hr.
  destruct (shr_fexp_positive (round_nearest_even (shr_m mrs') (loc_of_shr_record mrs'))
              e' loc_Exact) as [H2 E2]; [lia|exact E1|].
  destruct (shr_fexp prec emax _ e' loc_Exact) as [mrs'' e'']. simpl in H2.
  destruct (shr_m mrs'') as [|p|p]; try lia.
  destruct (e'' <=? emax - prec)%Z; exact I.
Qed.

Lemma binary_round_nonzero (s : bool) (p : positive) (e : Z) :
  (emin <= e)%Z -> nonzero_SF (binary_round prec emax s p e).
Proof.
  intros He. unfold binary_round.
  destruct (shl_align p e (fexp prec emax (Z.pos (digits2_pos p) + e))) as [mz ez] eqn:E.
  apply binary_round_aux_nonzero; [lia|].
  unfold shl_align in E.
  assert (Hf : (emin <= fexp prec emax (Z.pos (digits2_pos p) + e))%Z)
    by (unfold fexp; lia).
  destruct (fexp prec emax (Z.pos (digits2_pos p) + e) - e)%Z;
    injection E as <- <-; assumption.
Qed.

Lemma binary_normalize_nonzero (m e : Z) (sz : bool) :
  m <> 0%Z -> (emin <= e)%Z -> nonzero_SF (binary_normalize prec emax m e sz).
Proof.
  intros Hm He. destruct m as [|p|p]; [contradiction| |];
    apply binary_round_nonzero, He.
Qed.

Lemma iter_xO_even (d : positive) (m : positive) :
  exists q, Pos.iter xO m d = xO q.
Proof.
  revert m. induction d as [d IH|d IH|]; intros m; simpl; eauto.
Qed.

Lemma digits2_pos_iter_xO (d : positive) :
  forall m, Z.pos (digits2_pos (Pos.iter xO m d)) = (Z.pos (digits2_pos m) + Z.pos d)%Z.
Proof.
  induction d as [d IH|d IH|]; intros m; simpl.
  - rewrite Pos2Z.inj_succ, !IH. lia.
  - rewrite !IH. lia.
  - lia.
Qed.

Lemma Prim2SF_epsilon : Prim2SF epsilon = epsilon_SF.
Proof. reflexivity. Qed.

Lemma Prim2SF_neg_epsilon : Prim2SF (- epsilon)%float = S754_finite true 4722366482869645 (-72).
Proof. reflexivity. Qed.

Lemma valid_finite_inv (s : bool) (m : positive) (e : Z) :
  valid_binary (S754_finite s m e) = true ->
  fexp prec emax (Z.pos (digits2_pos m) + e) = e /\ (emin <= e)%Z.
Proof.
  unfold SpecFloat.valid_binary, SpecFloat.bounded, canonical_mantissa.
  intros [Hc%Z.eqb_eq _]%andb_prop. split; [exact Hc|].
  rewrite <- Hc. unfold fexp. lia.
Qed.

Lemma SFadd_epsilon (x : spec_float) :
  valid_binary x = true ->
  nonzero_SF (SF64add x epsilon_SF) \/ x = S754_finite true 4722366482869645 (-72).
Proof.
  destruct x as [s|s| |s m e]; try (intros _; left; exact I).
  intros [Hc He]%valid_finite_inv.
  unfold SF64add, SFadd, epsilon_SF.
  set (m0 := 4722366482869645%positive) in *.
  set (ez := Z.min e (-72)).
  assert (Hez : (emin <= ez)%Z) by (unfold ez; change emin with (-1074)%Z in *; lia).
  set (sum := (cond_Zopp s (Z.pos (shl_align m e ez).1)
               + cond_Zopp false (Z.pos (shl_align m0 (-72) ez).1))%Z).
  destruct (Z.eq_dec sum 0%Z) as [Hz|Hnz];
    [right|left; apply binary_normalize_nonzero; assumption].
  unfold sum in Hz. destruct s; simpl in Hz; [|lia].
  assert (HM : (shl_align m e ez).1 = (shl_align m0 (-72) ez).1) by lia.
  clear Hz sum. unfold shl_align, ez in HM.
  destruct (Z_le_gt_dec e (-72)) as [Hle|Hgt].
  - rewrite Z.min_l, Z.sub_diag in HM by exact Hle. simpl in HM.
    destruct (e - -72)%Z as [|d|d] eqn:Hd; simpl in HM.
    + subst m. f_equal. lia.
    + lia.
    + exfalso. subst m. rewrite digits2_pos_iter_xO in Hc.
      change (digits2_pos m0) with 53%positive in Hc.
      unfold fexp in Hc. change (SpecFloat.emin prec emax) with (-1074)%Z in Hc.
      change prec with 53%Z in Hc. lia.
  - rewrite Z.min_r in HM by lia. simpl in HM.
    destruct (-72 - e)%Z as [|d|d] eqn:Hd; try lia. simpl in HM.
    destruct (iter_xO_even d m) as [q Hq]. rewrite Hq in HM. discriminate.
Qed.





(** * Further properties of the code *)

(** ** binary64 arithmetic on zeros *)

Lemma finiteb_cases (v : float) :
  finiteb v = true ->
  (exists s, Prim2SF v = S754_zero s) \/ (exists s m e, Prim2SF v = S754_finite s m e).
Proof.
  unfold finiteb. destruct (Prim2SF v) as [s|s| |s m e]; try discriminate; eauto.
Qed.

Lemma zerob_Prim2SF (v : float) :
  zerob v = true <-> exists s, Prim2SF v = S754_zero s.
Proof.
  unfold zerob. rewrite FloatAxioms.eqb_spec, Prim2SF_zero.
  destruct (Prim2SF v) as [s|s| |s m e]; try destruct s; simpl; split;
    try discriminate; eauto; intros [? ?]; discriminate.
Qed.

Lemma float_sub_self (v : float) :
  finiteb v = true -> (v - v)%float = 0%float.
Proof.
  intros Hv. apply Prim2SF_inj. rewrite FloatAxioms.sub_spec, Prim2SF_zero.
  unfold SF64sub, SFsub.
  destruct (finiteb_cases v Hv) as [[s ->]|(s & m & e & ->)].
  - destruct s; reflexivity.
  - rewrite Z.min_id. unfold shl_align. rewrite Z.sub_diag. reflexivity.
Qed.

Lemma float_mul_zero_r (u z : float) :
  finiteb u = true -> zerob z = true -> zerob (u * z)%float = true.
Proof.
  intros Hu [s Hz]%zerob_Prim2SF. apply zerob_Prim2SF.
  rewrite FloatAxioms.mul_spec, Hz. unfold SF64mul, SFmul.
  destruct (finiteb_cases u Hu) as [[su ->]|(su & m & e & ->)]; eauto.
Qed.

Lemma float_mul_zero_l (z u : float) :
  zerob z = true -> finiteb u = true -> zerob (z * u)%float = true.
Proof.
  intros [s Hz]%zerob_Prim2SF Hu. apply zerob_Prim2SF.
  rewrite FloatAxioms.mul_spec, Hz. unfold SF64mul, SFmul.
  destruct (finiteb_cases u Hu) as [[su ->]|(su & m & e & ->)]; eauto.
Qed.

Lemma float_zero_sub_zero (z : float) :
  zerob z = true -> (0 - z)%float = 0%float.
Proof.
  intros [s Hz]%zerob_Prim2SF. apply Prim2SF_inj.
  rewrite FloatAxioms.sub_spec, Hz, Prim2SF_zero. destruct s; reflexivity.
Qed.


Lemma float_zero_div (den : float) :
  regular_SF (Prim2SF den) -> zerob (0 / den)%float = true.
Proof.
  intros Hden. apply zerob_Prim2SF.
  rewrite FloatAxioms.div_spec, Prim2SF_zero. unfold SF64div, SFdiv.
  destruct (Prim2SF den) as [s|s| |s m e]; try contradiction; eauto.
Qed.

(** Rounding a positive mantissa gives a non-zero number. *)
Lemma binary_round_aux_regular (s : bool) (m e : Z) (l : location) :
  (0 < m)%Z -> (emin <= e)%Z -> regular_SF (binary_round_aux prec emax s m e l).
Proof.
  intros Hm He. unfold binary_round_aux.
  destruct (shr_fexp_positive m e l Hm He) as [H1 E1].
  destruct (shr_fexp prec emax m e l) as [mrs' e']. simpl in H1, E1.
  pose proof (round_nearest_even_ge (shr_m mrs') (loc_of_shr_record mrs')) as Hr.
  destruct (shr_fexp_positive (round_nearest_even (shr_m mrs') (loc_of_shr_record mrs'))
              e' loc_Exact) as [H2 E2]; [lia|exact E1|].
  destruct (shr_fexp prec emax _ e' loc_Exact) as [mrs'' e'']. simpl in H2.
  destruct (shr_m mrs'') as [|p|p]; try lia.
  destruct (e'' <=? emax - prec)%Z; exact I.
Qed.

Lemma binary_normalize_not_nan (m e : Z) (sz : bool) :
  (emin <= e)%Z -> binary_normalize prec emax m e sz <> S754_nan.
Proof.
  intros He. unfold binary_normalize, binary_round.
  destruct m as [|p|p]; [discriminate| |].
  - destruct (shl_align p e (fexp prec emax (Z.pos (digits2_pos p) + e))) as [mz ez] eqn:E.
    assert (Hez : (emin <= ez)%Z).
    { unfold shl_align in E.
      assert (Hf : (emin <= fexp prec emax (Z.pos (digits2_pos p) + e))%Z)
        by (unfold fexp; lia).
      destruct (fexp prec emax (Z.pos (digits2_pos p) + e) - e)%Z;
        injection E as <- <-; assumption. }
    pose proof (binary_round_aux_regular false (Z.pos mz) ez loc_Exact
                  ltac:(lia) Hez) as Hreg.
    intros Hnan. rewrite Hnan in Hreg. exact Hreg.
  - destruct (shl_align p e (fexp prec emax (Z.pos (digits2_pos p) + e))) as [mz ez] eqn:E.
    assert (Hez : (emin <= ez)%Z).
    { unfold shl_align in E.
      assert (Hf : (emin <= fexp prec emax (Z.pos (digits2_pos p) + e))%Z)
        by (unfold fexp; lia).
      destruct (fexp prec emax (Z.pos (digits2_pos p) + e) - e)%Z;
        injection E as <- <-; assumption. }
    pose proof (binary_round_aux_regular true (Z.pos mz) ez loc_Exact
                  ltac:(lia) Hez) as Hreg.
    intros Hnan. rewrite Hnan in Hreg. exact Hreg.
Qed.

Lemma SFadd_epsilon_not_nan (x : spec_float) :
  valid_binary x = true -> x <> S754_nan -> SF64add x epsilon_SF <> S754_nan.
Proof.
  destruct x as [s|s| |s m e]; try discriminate; [contradiction|].
  intros [_ He]%valid_finite_inv _.
  unfold SF64add, SFadd, epsilon_SF.
  apply binary_normalize_not_nan. change emin with (-1074)%Z in *. lia.
Qed.

Lemma not_nan_Prim2SF (v : float) : not_nan v -> Prim2SF v <> S754_nan.
Proof.
  unfold not_nan. rewrite FloatAxioms.eqb_spec. intros H Hn. rewrite Hn in H.
  discriminate.
Qed.

(** The denominator is a non-zero number, finite or infinite, for every
    [sigma] that is a number other than [-1e-6]. *)
Lemma denominator_regular (sigma : float) :
  not_nan sigma -> sigma <> (- epsilon)%float ->
  regular_SF (Prim2SF (sigma + epsilon)%float).
Proof.
  intros Hnn Hne. rewrite FloatAxioms.add_spec, Prim2SF_epsilon.
  pose proof (SFadd_epsilon_not_nan (Prim2SF sigma) (Prim2SF_valid sigma)
                (not_nan_Prim2SF sigma Hnn)) as Hnan.
  destruct (SFadd_epsilon (Prim2SF sigma) (Prim2SF_valid sigma)) as [Hnz|Heq].
  - destruct (SF64add (Prim2SF sigma) epsilon_SF); try contradiction; exact I.
  - exfalso. apply Hne, Prim2SF_inj. rewrite Heq. reflexivity.
Qed.

(** ** tests.py *)

Lemma has_shape_np_shape {num : Type} (paths : ndarray2 num) (rows cols : nat) :
  has_shape paths (Z.of_nat (S rows)) (Z.of_nat cols) ->
  np_shape paths = (S rows, cols).
Proof.
  intros [Hlen Hrows]. unfold np_shape.
  destruct paths as [|row paths]; [simpl in Hlen; lia|].
  apply Forall_cons in Hrows as [Hrow _]. f_equal; lia.
Qed.

(** X1.  Both test methods of [tests.py] succeed whatever state the
    generator is in: [simulate] returns for [T=1], [dt=1/252], [n_paths=5]
    and the shape of what it returns is [(253, 5)]. *)
Theorem unit_tests_pass (g : rng float) :
  test_vasicek_simulation g = test_ok /\ test_holee_simulation g = test_ok.
Proof.
  destruct (simulate_positive_run
              (VasicekModel.init 0.1 0.05 0.02 0.03 None)%float
              (HoLeeModel.init 0.001 0.02 0.03 None)%float 1%float (1 / 252)%float 5 g)
    as (n & Hn & _ & _ & (pv & gv & Hv & Sv & _) & (ph & gh & Hh & Sh & _));
    [reflexivity|reflexivity|lia|reflexivity|].
  vm_compute in Hn. injection Hn as <-.
  unfold test_vasicek_simulation, test_holee_simulation.
  cbv zeta. rewrite Hv, Hh. simpl.
  rewrite (has_shape_np_shape pv 252 5 Sv), (has_shape_np_shape ph 252 5 Sh).
  split; reflexivity.
Qed.

(** ** Path counts that are not positive *)

Lemma euler_maruyama_negative_paths {num : Type} {SC : Scalar num}
    (drift : num -> num) (sigma r0 dt : num) (n_steps n_paths : Z) (g : rng num) :
  (n_paths < 0)%Z ->
  euler_maruyama drift sigma r0 dt n_steps n_paths g = Raise ValueError.
Proof.
  intros Hp. unfold euler_maruyama.
  replace (n_paths <? 0)%Z with true by (symmetry; apply Z.ltb_lt; exact Hp).
  rewrite orb_true_r. reflexivity.
Qed.

Lemma converted_negative_paths {num : Type} {SC : Scalar num}
    (drift : num -> num) (sigma r0 T dt : num) (n_paths : Z) (g : rng num) :
  (n_paths < 0)%Z ->
  exists e,
    (q <- num_truediv T dt ;;
     n_steps <- num_int q ;;
     euler_maruyama drift sigma r0 dt n_steps n_paths g) = Raise e /\
    (forall q n_steps, num_truediv T dt = Ok q -> num_int q = Ok n_steps ->
       e = ValueError).
Proof.
  intros Hp.
  destruct (num_truediv T dt) as [q|e]; simpl;
    [|exists e; split; [reflexivity|discriminate]].
  destruct (num_int q) as [n|e] eqn:Hn; simpl.
  - rewrite euler_maruyama_negative_paths by exact Hp.
    exists ValueError. split; reflexivity.
  - exists e. split; [reflexivity|]. intros q' n' [= <-]. rewrite Hn. discriminate.
Qed.

(** X2.  With a negative [n_paths] neither simulator ever returns: every
    call raises, and when the step count [int(T / dt)] exists the exception
    is the [ValueError] of [np.zeros]. *)
Theorem simulate_negative_paths
    (vm : VasicekModel.t float) (hm : HoLeeModel.t float)
    (T dt : float) (n_paths : Z) (g : rng float) :
  (n_paths < 0)%Z ->
  (exists e, VasicekModel.simulate vm T dt n_paths g = Raise e /\
     (forall n_steps, PrimFloat.eqb dt 0 = false ->
        float_int (T / dt) = Ok n_steps -> e = ValueError)) /\
  (exists e, HoLeeModel.simulate hm T dt n_paths g = Raise e /\
     (forall n_steps, PrimFloat.eqb dt 0 = false ->
        float_int (T / dt) = Ok n_steps -> e = ValueError)).
Proof.
  intros Hp.
  assert (Hq : forall n_steps, PrimFloat.eqb dt 0 = false ->
            float_int (T / dt) = Ok n_steps ->
            exists q, num_truediv T dt = Ok q /\ num_int q = Ok n_steps).
  { intros n Hz Hn. exists (T / dt)%float. split; [|exact Hn].
    simpl. unfold float_truediv. rewrite Hz. reflexivity. }
  split.
  - rewrite vasicek_simulate_outcome.
    destruct (converted_negative_paths (vasicek_drift vm dt) (VasicekModel.sigma vm)
                (VasicekModel.r0 vm) T dt n_paths g Hp) as (e & -> & He).
    exists e. split; [reflexivity|]. intros n Hz Hn.
    destruct (Hq n Hz Hn) as (q & Hq1 & Hq2). exact (He q n Hq1 Hq2).
  - rewrite holee_simulate_outcome.
    destruct (converted_negative_paths (holee_drift hm dt) (HoLeeModel.sigma hm)
                (HoLeeModel.r0 hm) T dt n_paths g Hp) as (e & -> & He).
    exists e. split; [reflexivity|]. intros n Hz Hn.
    destruct (Hq n Hz Hn) as (q & Hq1 & Hq2). exact (He q n Hq1 Hq2).
Qed.

Lemma simulate_negative_paths_witness :
  (-1 < 0)%Z /\
  VasicekModel.simulate (VasicekModel.init 0.1 0.05 0.02 0.03 None)%float
    1%float 0.25%float (-1) sample_rng = Raise ValueError.
Proof.
  assert (Hp : (-1 < 0)%Z) by lia.
  split; [exact Hp|].
  destruct (simulate_negative_paths
              (VasicekModel.init 0.1 0.05 0.02 0.03 None)%float
              (HoLeeModel.init 0.001 0.02 0.03 None)%float
              1%float 0.25%float (-1) sample_rng Hp) as [(e & -> & He) _].
  f_equal. apply (He 4%Z); reflexivity.
Defined.

Lemma shape_zero_columns {num : Type} (paths : ndarray2 num) (rows : Z) :
  has_shape paths rows 0 -> paths = replicate (Z.to_nat rows) [].
Proof.
  intros [Hlen Hrows]. replace (Z.to_nat rows) with (length paths) by lia.
  clear Hlen. induction paths as [|row paths IH]; [reflexivity|].
  apply Forall_cons in Hrows as [Hrow Hrows]. simpl.
  rewrite <- IH by exact Hrows.
  destruct row; [reflexivity|simpl in Hrow; lia].
Qed.

(** X3.  With [n_paths = 0], positive [T] and [dt], a step count
    [n_steps = int(T / dt)] and [n_steps + 1] rows within NumPy's size
    limit, both simulators return [n_steps + 1] empty rows and take no
    variate from the generator. *)
Theorem simulate_no_paths
    (vm : VasicekModel.t float) (hm : HoLeeModel.t float)
    (T dt : float) (n_steps : Z) (g : rng float) :
  float_positive T -> float_positive dt ->
  float_int (T / dt)%float = Ok n_steps ->
  within_array_limit (n_steps + 1) 0 ->
  (exists g',
     VasicekModel.simulate vm T dt 0 g
       = Ok (replicate (Z.to_nat (n_steps + 1)) [], g') /\
     forall k, g' k = g k) /\
  (exists g',
     HoLeeModel.simulate hm T dt 0 g
       = Ok (replicate (Z.to_nat (n_steps + 1)) [], g') /\
     forall k, g' k = g k).
Proof.
  intros HT Hdt Hint _.
  destruct (simulate_positive_run vm hm T dt 0 g HT Hdt)
    as (n & Hn & _ & _ & (pv & gv & Hv & Sv & _ & Gv & _)
                        & (ph & gh & Hh & Sh & _ & Gh & _));
    [lia|exact (float_int_Ok_finite _ _ Hint)|].
  rewrite Hint in Hn. injection Hn as <-. split.
  - exists gv. rewrite Hv, (shape_zero_columns pv _ Sv). split; [reflexivity|].
    intros k. rewrite Gv. f_equal. simpl. lia.
  - exists gh. rewrite Hh, (shape_zero_columns ph _ Sh). split; [reflexivity|].
    intros k. rewrite Gh. f_equal. simpl. lia.
Qed.

Lemma simulate_no_paths_witness :
  float_positive 1%float /\ float_positive 0.25%float /\
  float_int (1 / 0.25)%float = Ok 4%Z /\ within_array_limit (4 + 1) 0 /\
  exists g',
    VasicekModel.simulate (VasicekModel.init 0.1 0.05 0.02 0.03 None)%float
      1%float 0.25%float 0 sample_rng = Ok ([[]; []; []; []; []], g').
Proof.
  assert (HT : float_positive 1%float) by reflexivity.
  assert (Hdt : float_positive 0.25%float) by reflexivity.
  assert (Hint : float_int (1 / 0.25)%float = Ok 4%Z) by reflexivity.
  assert (Hl : within_array_limit (4 + 1) 0) by reflexivity.
  repeat (split; [assumption|]).
  destruct (simulate_no_paths
              (VasicekModel.init 0.1 0.05 0.02 0.03 None)%float
              (HoLeeModel.init 0.001 0.02 0.03 None)%float
              1%float 0.25%float 4 sample_rng HT Hdt Hint Hl)
    as [(g' & Hsim & _) _].
  exists g'. exact Hsim.
Defined.

(** ** Paths do not interact *)

Section Columns.
Context {num : Type} {SC : Scalar num}.
Variable drift : num -> num.
Variables sigma r0 dt : num.

Lemma scheme_run_rows (n_steps n_paths : Z) (g : rng num)
    (paths : ndarray2 num) (g' : rng num) (t j : nat) :
  scheme_run drift sigma r0 dt n_steps n_paths g paths g' ->
  (0 <= n_steps)%Z -> (Z.to_nat n_steps < t)%nat ->
  entry paths t j = None.
Proof.
  intros ([Hlen _] & _) Hn Ht. unfold entry.
  rewrite (lookup_ge_None_2 paths t) by lia. reflexivity.
Qed.

Lemma scheme_run_column (n_steps n_paths : Z) (g1 g2 : rng num)
    (paths1 paths2 : ndarray2 num) (g1' g2' : rng num) (j : nat) :
  scheme_run drift sigma r0 dt n_steps n_paths g1 paths1 g1' ->
  scheme_run drift sigma r0 dt n_steps n_paths g2 paths2 g2' ->
  (0 <= n_steps)%Z -> (j < Z.to_nat n_paths)%nat ->
  (forall t, (t < Z.to_nat n_steps)%nat ->
     g1 (t * Z.to_nat n_paths + j)%nat = g2 (t * Z.to_nat n_paths + j)%nat) ->
  forall t, entry paths1 t j = entry paths2 t j.
Proof.
  intros R1 R2 Hn Hj Hg t.
  destruct (le_gt_dec t (Z.to_nat n_steps)) as [Ht|Ht];
    [|rewrite (scheme_run_rows _ _ _ _ _ _ _ R1), (scheme_run_rows _ _ _ _ _ _ _ R2);
      auto; lia].
  destruct R1 as (_ & Hrow1 & _ & Hrec1), R2 as (_ & Hrow2 & _ & Hrec2).
  induction t as [|t IH].
  - rewrite (entry_row0 _ _ _ _ Hrow1 Hj), (entry_row0 _ _ _ _ Hrow2 Hj). reflexivity.
  - destruct (Hrec1 t j) as (v1 & Hv1 & ->); [lia|exact Hj|].
    destruct (Hrec2 t j) as (v2 & Hv2 & ->); [lia|exact Hj|].
    rewrite IH, Hv2 in Hv1 by lia. injection Hv1 as ->.
    unfold increment. rewrite Hg by lia. reflexivity.
Qed.
End Columns.

Lemma converted_run_unique {num : Type} {SC : Scalar num}
    (drift : num -> num) (sigma r0 T dt : num) (n_paths : Z) (g1 g2 : rng num)
    (paths1 paths2 : ndarray2 num) (g1' g2' : rng num) :
  (q <- num_truediv T dt ;; n_steps <- num_int q ;;
   euler_maruyama drift sigma r0 dt n_steps n_paths g1) = Ok (paths1, g1') ->
  (q <- num_truediv T dt ;; n_steps <- num_int q ;;
   euler_maruyama drift sigma r0 dt n_steps n_paths g2) = Ok (paths2, g2') ->
  exists q n_steps,
    num_truediv T dt = Ok q /\ num_int q = Ok n_steps /\ (0 <= n_steps)%Z /\
    scheme_run drift sigma r0 dt n_steps n_paths g1 paths1 g1' /\
    scheme_run drift sigma r0 dt n_steps n_paths g2 paths2 g2'.
Proof.
  intros (q & n & Hq & Hn & Hpos & _ & R1)%converted_run_iff
         (q' & n' & Hq' & Hn' & _ & _ & R2)%converted_run_iff.
  rewrite Hq in Hq'. injection Hq' as <-.
  rewrite Hn in Hn'. injection Hn' as <-.
  exists q, n. auto.
Qed.

(** X4.  Paths do not interact.  Column [j] of the returned array depends
    on the generator through the variates of that path only, those numbered
    [t * n_paths + j]: two calls whose generators agree on them return the
    same column, whatever the variates of the other paths. *)
Theorem simulate_paths_independent
    (vm : VasicekModel.t float) (hm : HoLeeModel.t float)
    (T dt : float) (n_paths n_steps : Z) (g1 g2 : rng float) (j : nat) :
  float_int (T / dt)%float = Ok n_steps ->
  (j < Z.to_nat n_paths)%nat ->
  (forall t, (t < Z.to_nat n_steps)%nat ->
     g1 (t * Z.to_nat n_paths + j)%nat = g2 (t * Z.to_nat n_paths + j)%nat) ->
  (forall paths1 g1' paths2 g2',
     VasicekModel.simulate vm T dt n_paths g1 = Ok (paths1, g1') ->
     VasicekModel.simulate vm T dt n_paths g2 = Ok (paths2, g2') ->
     forall t, entry paths1 t j = entry paths2 t j) /\
  (forall paths1 g1' paths2 g2',
     HoLeeModel.simulate hm T dt n_paths g1 = Ok (paths1, g1') ->
     HoLeeModel.simulate hm T dt n_paths g2 = Ok (paths2, g2') ->
     forall t, entry paths1 t j = entry paths2 t j).
Proof.
  intros Hint Hj Hg. split.
  - intros paths1 g1' paths2 g2'. rewrite !vasicek_simulate_outcome. intros H1 H2.
    destruct (converted_run_unique _ _ _ _ _ _ _ _ _ _ _ _ H1 H2)
      as (q & n & Hq & Hn & Hpos & R1 & R2).
    apply float_truediv_Ok in Hq. subst q.
    simpl in Hn. rewrite Hint in Hn. injection Hn as <-.
    exact (scheme_run_column _ _ _ _ _ _ _ _ _ _ _ _ _ R1 R2 Hpos Hj Hg).
  - intros paths1 g1' paths2 g2'. rewrite !holee_simulate_outcome. intros H1 H2.
    destruct (converted_run_unique _ _ _ _ _ _ _ _ _ _ _ _ H1 H2)
      as (q & n & Hq & Hn & Hpos & R1 & R2).
    apply float_truediv_Ok in Hq. subst q.
    simpl in Hn. rewrite Hint in Hn. injection Hn as <-.
    exact (scheme_run_column _ _ _ _ _ _ _ _ _ _ _ _ _ R1 R2 Hpos Hj Hg).
Qed.

Lemma simulate_paths_independent_witness :
  float_int (1 / 0.25)%float = Ok 4%Z /\ (0 < Z.to_nat 2)%nat /\
  (forall t, (t < Z.to_nat 4)%nat ->
     sample_rng (t * Z.to_nat 2 + 0)%nat
     = only_path 2 0 0%float sample_rng (t * Z.to_nat 2 + 0)%nat) /\
  forall paths1 g1' paths2 g2',
    VasicekModel.simulate (VasicekModel.init 0.1 0.05 0.02 0.03 None)%float
      1%float 0.25%float 2 sample_rng = Ok (paths1, g1') ->
    VasicekModel.simulate (VasicekModel.init 0.1 0.05 0.02 0.03 None)%float
      1%float 0.25%float 2 (only_path 2 0 0%float sample_rng) = Ok (paths2, g2') ->
    forall t, entry paths1 t 0 = entry paths2 t 0.
Proof.
  assert (Hint : float_int (1 / 0.25)%float = Ok 4%Z) by reflexivity.
  assert (Hj : (0 < Z.to_nat 2)%nat) by (simpl; lia).
  assert (Hg : forall t, (t < Z.to_nat 4)%nat ->
            sample_rng (t * Z.to_nat 2 + 0)%nat
            = only_path 2 0 0%float sample_rng (t * Z.to_nat 2 + 0)%nat).
  { intros t _. unfold only_path. change (Z.to_nat 2) with 2%nat.
    rewrite Nat.add_0_r, Nat.Div0.mod_mul. reflexivity. }
  repeat (split; [assumption|]).
  exact (proj1 (simulate_paths_independent
                  (VasicekModel.init 0.1 0.05 0.02 0.03 None)%float
                  (HoLeeModel.init 0.001 0.02 0.03 None)%float
                  1%float 0.25%float 2 4 sample_rng (only_path 2 0 0%float sample_rng)
                  0%nat Hint Hj Hg)).
Defined.


(** ** Extending the horizon *)

Section Horizon.
Context {num : Type} {SC : Scalar num}.

Lemma euler_paths_take (next : num -> num -> num) (dW : ndarray2 num) :
  forall (row : list num) (n : nat),
    euler_paths next row (take n dW) = take (S n) (euler_paths next row dW).
Proof.
  induction dW as [|w dW IH]; intros row n.
  - rewrite take_nil. simpl. rewrite take_nil. reflexivity.
  - destruct n as [|n]; [destruct dW; reflexivity|].
    simpl. rewrite IH. reflexivity.
Qed.

Lemma draw_rows_take (n1 n2 cols : nat) (g : rng num) :
  (n1 <= n2)%nat ->
  (draw_rows n1 cols g).1 = take n1 (draw_rows n2 cols g).1.
Proof.
  intros Hle.
  rewrite (proj1 (draw_rows_spec n1 cols g)), (proj1 (draw_rows_spec n2 cols g)).
  rewrite <- fmap_take, take_seq. do 2 f_equal. lia.
Qed.

Lemma euler_maruyama_Ok_paths (drift : num -> num) (sigma r0 dt : num)
    (n_steps n_paths : Z) (g : rng num) (paths : ndarray2 num) (g' : rng num) :
  euler_maruyama drift sigma r0 dt n_steps n_paths g = Ok (paths, g') ->
  paths = euler_paths (euler_next drift sigma) (replicate (Z.to_nat n_paths) r0)
            (np_scale2 (num_sqrt dt)
               (draw_rows (Z.to_nat n_steps) (Z.to_nat n_paths) g).1).
Proof.
  unfold euler_maruyama.
  destruct ((n_steps + 1 <? 0)%Z || (n_paths <? 0)%Z); [discriminate|].
  destruct (n_steps + 1 =? 0)%Z; [discriminate|].
  intros [= <- _]. reflexivity.
Qed.

Lemma euler_maruyama_extend (drift : num -> num) (sigma r0 dt : num)
    (n1 n2 n_paths : Z) (g : rng num)
    (paths1 paths2 : ndarray2 num) (g1 g2 : rng num) :
  (n1 <= n2)%Z ->
  euler_maruyama drift sigma r0 dt n1 n_paths g = Ok (paths1, g1) ->
  euler_maruyama drift sigma r0 dt n2 n_paths g = Ok (paths2, g2) ->
  paths1 = take (S (Z.to_nat n1)) paths2.
Proof.
  intros Hle H1 H2.
  destruct (euler_maruyama_Ok_inv _ _ _ _ _ _ _ _ H1) as [Hn1 _].
  apply euler_maruyama_Ok_paths in H1, H2. subst paths1 paths2.
  rewrite <- euler_paths_take. f_equal. unfold np_scale2.
  rewrite <- fmap_take. f_equal. apply draw_rows_take. lia.
Qed.
End Horizon.

(** X5.  Extending the horizon keeps the past.  For the same [dt],
    [n_paths] and generator state, the array simulated over the shorter
    horizon ([n1] steps) is the first [n1 + 1] rows of the array simulated
    over the longer one ([n2 >= n1] steps). *)
Theorem simulate_extends_horizon
    (vm : VasicekModel.t float) (hm : HoLeeModel.t float)
    (T1 T2 dt : float) (n_paths n1 n2 : Z) (g : rng float) :
  float_int (T1 / dt)%float = Ok n1 -> float_int (T2 / dt)%float = Ok n2 ->
  (n1 <= n2)%Z ->
  (forall paths1 g1 paths2 g2,
     VasicekModel.simulate vm T1 dt n_paths g = Ok (paths1, g1) ->
     VasicekModel.simulate vm T2 dt n_paths g = Ok (paths2, g2) ->
     paths1 = take (S (Z.to_nat n1)) paths2) /\
  (forall paths1 g1 paths2 g2,
     HoLeeModel.simulate hm T1 dt n_paths g = Ok (paths1, g1) ->
     HoLeeModel.simulate hm T2 dt n_paths g = Ok (paths2, g2) ->
     paths1 = take (S (Z.to_nat n1)) paths2).
Proof.
  intros Hn1 Hn2 Hle. split.
  - intros paths1 g1 paths2 g2. rewrite !vasicek_simulate_outcome.
    intros (q1 & ->%float_truediv_Ok & (m1 & Hm1 & H1)%bind_Ok)%bind_Ok
           (q2 & ->%float_truediv_Ok & (m2 & Hm2 & H2)%bind_Ok)%bind_Ok.
    simpl in Hm1, Hm2. rewrite Hn1 in Hm1. rewrite Hn2 in Hm2.
    injection Hm1 as <-. injection Hm2 as <-.
    exact (euler_maruyama_extend _ _ _ _ _ _ _ _ _ _ _ _ Hle H1 H2).
  - intros paths1 g1 paths2 g2. rewrite !holee_simulate_outcome.
    intros (q1 & ->%float_truediv_Ok & (m1 & Hm1 & H1)%bind_Ok)%bind_Ok
           (q2 & ->%float_truediv_Ok & (m2 & Hm2 & H2)%bind_Ok)%bind_Ok.
    simpl in Hm1, Hm2. rewrite Hn1 in Hm1. rewrite Hn2 in Hm2.
    injection Hm1 as <-. injection Hm2 as <-.
    exact (euler_maruyama_extend _ _ _ _ _ _ _ _ _ _ _ _ Hle H1 H2).
Qed.

Lemma simulate_extends_horizon_witness :
  float_int (0.5 / 0.25)%float = Ok 2%Z /\ float_int (1 / 0.25)%float = Ok 4%Z /\
  (2 <= 4)%Z /\
  forall paths1 g1 paths2 g2,
    VasicekModel.simulate (VasicekModel.init 0.1 0.05 0.02 0.03 None)%float
      0.5%float 0.25%float 2 sample_rng = Ok (paths1, g1) ->
    VasicekModel.simulate (VasicekModel.init 0.1 0.05 0.02 0.03 None)%float
      1%float 0.25%float 2 sample_rng = Ok (paths2, g2) ->
    paths1 = take 3 paths2.
Proof.
  assert (H1 : float_int (0.5 / 0.25)%float = Ok 2%Z) by reflexivity.
  assert (H2 : float_int (1 / 0.25)%float = Ok 4%Z) by reflexivity.
  assert (Hle : (2 <= 4)%Z) by lia.
  repeat (split; [assumption|]).
  exact (proj1 (simulate_extends_horizon
                  (VasicekModel.init 0.1 0.05 0.02 0.03 None)%float
                  (HoLeeModel.init 0.001 0.02 0.03 None)%float
                  0.5%float 1%float 0.25%float 2 2 4 sample_rng H1 H2 Hle)).
Defined.

(** ** Parameter vectors of the wrong length *)

(** X6.  The residual functions unpack their parameter vector: a vector of
    any length other than 3 (Vasicek) or 2 (Ho-Lee) raises [ValueError], a
    vector of that length never raises. *)
Theorem residual_unpacking (params r : list float) (dt : float) :
  (length params = 3%nat -> returns (vasicek_calibration params r dt)) /\
  (length params <> 3%nat -> vasicek_calibration params r dt = Raise ValueError) /\
  (length params = 2%nat -> returns (holee_calibration params r dt)) /\
  (length params <> 2%nat -> holee_calibration params r dt = Raise ValueError).
Proof.
  repeat split.
  - destruct params as [|a [|b [|sigma [|? ?]]]]; try discriminate. intros _.
    destruct (vasicek_residuals_spec a b sigma r dt) as (res & Hres & _).
    exists res. exact Hres.
  - destruct params as [|a [|b [|sigma [|? ?]]]]; try reflexivity. intros H. contradiction H.
    reflexivity.
  - destruct params as [|theta [|sigma [|? ?]]]; try discriminate. intros _.
    destruct (holee_residuals_spec theta sigma r dt) as (res & Hres & _).
    exists res. exact Hres.
  - destruct params as [|theta [|sigma [|? ?]]]; try reflexivity. intros H. contradiction H.
    reflexivity.
Qed.

(** ** The fitted vector is a candidate again *)

(** X8.  The vector a calibration returns is a candidate again: the
    model's residual function accepts it and gives one residual per
    transition of the series. *)
Theorem calibrated_vector_is_candidate {NM : Numerics} (rate_data : list float) (dt : float) :
  (forall fit, calibrate_vasicek rate_data dt = Ok fit ->
     exists res, vasicek_calibration fit rate_data dt = Ok res /\
                 length res = (length rate_data - 1)%nat) /\
  (forall fit, calibrate_holee rate_data dt = Ok fit ->
     exists res, holee_calibration fit rate_data dt = Ok res /\
                 length res = (length rate_data - 1)%nat).
Proof.
  split.
  - intros fit (res & Hres & [= <-])%bind_Ok.
    apply least_squares_shape in Hres.
    destruct (x res) as [|a [|b [|sigma [|? ?]]]]; try discriminate.
    destruct (vasicek_residuals_spec a b sigma rate_data dt) as (v & Hv & Hlen & _).
    eauto.
  - intros fit (res & Hres & [= <-])%bind_Ok.
    apply least_squares_shape in Hres.
    destruct (x res) as [|theta [|sigma [|? ?]]]; try discriminate.
    destruct (holee_residuals_spec theta sigma rate_data dt) as (v & Hv & Hlen & _).
    eauto.
Qed.

(** ** Constant series *)

Lemma residuals_of_constant_series (res : list float) (n : nat) (v x : float) :
  length res = (n - 1)%nat ->
  (forall i r_lag r_next,
     replicate n x !! i = Some r_lag -> replicate n x !! S i = Some r_next ->
     res !! i = Some v) ->
  res = replicate (n - 1) v.
Proof.
  intros Hlen Hres. apply list_eq. intros i.
  destruct (le_gt_dec (n - 1) i) as [Hge|Hlt].
  - rewrite (lookup_ge_None_2 res i) by lia.
    rewrite (lookup_ge_None_2 (replicate (n - 1) v) i)
      by (rewrite length_replicate; lia).
    reflexivity.
  - rewrite (lookup_replicate_2 (n - 1) v i) by lia.
    apply (Hres i x x); apply lookup_replicate_2; lia.
Qed.

(** X9.  On a constant series of a finite value every Ho-Lee residual is
    the same number, [(0 - theta*dt) / (sigma + 1e-6)]: the observations
    themselves cancel exactly. *)
Theorem holee_residuals_constant_series
    (theta sigma x dt : float) (n : nat) :
  float_finite x ->
  holee_calibration [theta; sigma] (replicate n x) dt
    = Ok (replicate (n - 1) ((0 - theta * dt) / (sigma + 1e-6))%float).
Proof.
  intros Hx.
  destruct (holee_residuals_spec theta sigma (replicate n x) dt)
    as (res & -> & Hlen & Hres).
  rewrite length_replicate in Hlen. f_equal.
  apply (residuals_of_constant_series res n _ x Hlen).
  intros i r_lag r_next Hi Hnext. rewrite (Hres i r_lag r_next Hi Hnext).
  apply lookup_replicate in Hi as [-> _]. apply lookup_replicate in Hnext as [-> _].
  rewrite (float_sub_self x Hx). reflexivity.
Qed.

Lemma holee_residuals_constant_series_witness :
  float_finite 0.03%float /\
  holee_calibration [0.001; 0.02]%float (replicate 4 0.03%float) 0.25%float
    = Ok (replicate 3 ((0 - 0.001 * 0.25) / (0.02 + 1e-6))%float).
Proof.
  assert (Hx : float_finite 0.03%float) by reflexivity.
  split; [exact Hx|].
  exact (holee_residuals_constant_series 0.001%float 0.02%float 0.03%float 0.25%float 4 Hx).
Defined.

(** X10.  On a constant series of a finite value [x] the Vasicek residuals
    at [b = x] are all zero, for every finite [a] and [dt] and every [sigma]
    that is a number other than [-1e-6]: the series says nothing about
    [a]. *)
Theorem vasicek_residuals_constant_series
    (a sigma x dt : float) (n : nat) :
  float_finite a -> float_finite x -> float_finite dt ->
  not_nan sigma -> sigma <> (-1e-6)%float ->
  exists z,
    zerob z = true /\
    vasicek_calibration [a; x; sigma] (replicate n x) dt = Ok (replicate (n - 1) z).
Proof.
  intros Ha Hx Hdt Hnn Hne.
  exists ((0 - a * 0 * dt) / (sigma + 1e-6))%float. split.
  - assert (Hz : zerob (a * 0 * dt)%float = true).
    { apply float_mul_zero_l; [|exact Hdt]. apply float_mul_zero_r; [exact Ha|reflexivity]. }
    rewrite (float_zero_sub_zero _ Hz).
    apply float_zero_div, denominator_regular; assumption.
  - destruct (vasicek_residuals_spec a x sigma (replicate n x) dt)
      as (res & -> & Hlen & Hres).
    rewrite length_replicate in Hlen. f_equal.
    apply (residuals_of_constant_series res n _ x Hlen).
    intros i r_lag r_next Hi Hnext. rewrite (Hres i r_lag r_next Hi Hnext).
    apply lookup_replicate in Hi as [-> _]. apply lookup_replicate in Hnext as [-> _].
    rewrite (float_sub_self x Hx). reflexivity.
Qed.

Lemma vasicek_residuals_constant_series_witness :
  float_finite 0.1%float /\ float_finite 0.03%float /\ float_finite 0.25%float /\
  not_nan 0.02%float /\ 0.02%float <> (-1e-6)%float /\
  exists z,
    zerob z = true /\
    vasicek_calibration [0.1; 0.03; 0.02]%float (replicate 4 0.03%float) 0.25%float
      = Ok (replicate 3 z).
Proof.
  assert (Ha : float_finite 0.1%float) by reflexivity.
  assert (Hx : float_finite 0.03%float) by reflexivity.
  assert (Hdt : float_finite 0.25%float) by reflexivity.
  assert (Hnn : not_nan 0.02%float) by reflexivity.
  assert (Hne : 0.02%float <> (-1e-6)%float).
  { intros H. apply (f_equal Prim2SF) in H. vm_compute in H. discriminate. }
  repeat (split; [assumption|]).
  exact (vasicek_residuals_constant_series 0.1%float 0.02%float 0.03%float 0.25%float 4
           Ha Hx Hdt Hnn Hne).
Defined.

(** X7.  A series of fewer than two observations has no transition: both
    residual functions return the empty vector. *)
Theorem residuals_short_series (a b theta sigma : float) (r : list float) (dt : float) :
  (length r <= 1)%nat ->
  vasicek_calibration [a; b; sigma] r dt = Ok [] /\
  holee_calibration [theta; sigma] r dt = Ok [].
Proof.
  intros Hr. split.
  - destruct (vasicek_residuals_spec a b sigma r dt) as (res & -> & Hlen & _).
    f_equal. apply nil_length_inv. lia.
  - destruct (holee_residuals_spec theta sigma r dt) as (res & -> & Hlen & _).
    f_equal. apply nil_length_inv. lia.
Qed.

Lemma residuals_short_series_witness :
  (length [0.03%float] <= 1)%nat /\
  vasicek_calibration [0.1; 0.05; 0.02]%float [0.03%float] 0.25%float = Ok [] /\
  holee_calibration [0.001; 0.02]%float [0.03%float] 0.25%float = Ok [].
Proof.
  assert (Hr : (length [0.03%float] <= 1)%nat) by (simpl; lia).
  split; [exact Hr|].
  exact (residuals_short_series 0.1%float 0.05%float 0.001%float 0.02%float
           [0.03%float] 0.25%float Hr).
Defined.

(** ** Rest points *)






(** ** The shape of the returned array *)

Lemma float_floor_finite (v : float) (k : Z) :
  float_floor v = Some k -> float_finite v.
Proof.
  unfold float_floor, float_finite, finiteb.
  destruct (Prim2SF v); try discriminate; reflexivity.
Qed.

(** C3 (amended).  For positive [T], [dt] and [n_paths]: whenever
    [simulate] returns, the binary64 quotient [T / dt] is finite and the
    array has the shape [(floor(T / dt) + 1, n_paths)]; and it does return,
    for both models, whenever that quotient is finite and an array of this
    shape is within NumPy's size limit. *)
Theorem simulate_shape
    (vm : VasicekModel.t float) (hm : HoLeeModel.t float)
    (T dt : float) (n_paths : Z) (g : rng float) :
  float_positive T -> float_positive dt -> (0 < n_paths)%Z ->
  (forall paths g',
     VasicekModel.simulate vm T dt n_paths g = Ok (paths, g') \/
     HoLeeModel.simulate hm T dt n_paths g = Ok (paths, g') ->
     exists n_steps,
       float_floor (T / dt)%float = Some n_steps /\
       has_shape paths (n_steps + 1) n_paths) /\
  (forall n_steps,
     float_floor (T / dt)%float = Some n_steps ->
     within_array_limit (n_steps + 1) n_paths ->
     (exists paths g',
        VasicekModel.simulate vm T dt n_paths g = Ok (paths, g') /\
        has_shape paths (n_steps + 1) n_paths) /\
     (exists paths g',
        HoLeeModel.simulate hm T dt n_paths g = Ok (paths, g') /\
        has_shape paths (n_steps + 1) n_paths)).
Proof.
  intros HT Hdt Hp. split.
  - assert (Hconv : forall q n, float_truediv T dt = Ok q -> float_int q = Ok n ->
                      float_floor (T / dt)%float = Some n).
    { intros q n ->%float_truediv_Ok Hn.
      destruct (float_int_positive_quotient T dt HT Hdt (float_int_Ok_finite _ _ Hn))
        as (n' & Hn' & _ & Hfloor).
      rewrite Hn in Hn'. injection Hn' as <-. exact Hfloor. }
    intros paths g' [Hsim|Hsim].
    + rewrite vasicek_simulate_outcome in Hsim.
      apply converted_run_iff in Hsim as (q & n & Hq & Hn & _ & _ & Hshape & _).
      exists n. split; [exact (Hconv q n Hq Hn)|exact Hshape].
    + rewrite holee_simulate_outcome in Hsim.
      apply converted_run_iff in Hsim as (q & n & Hq & Hn & _ & _ & Hshape & _).
      exists n. split; [exact (Hconv q n Hq Hn)|exact Hshape].
  - intros n_steps Hfloor _.
    destruct (simulate_positive_run vm hm T dt n_paths g HT Hdt)
      as (n & _ & Hn & _ & (pv & gv & Hv & Sv & _) & (ph & gh & Hh & Sh & _));
      [lia|exact (float_floor_finite _ _ Hfloor)|].
    rewrite Hfloor in Hn. injection Hn as <-. split.
    + exists pv, gv. split; assumption.
    + exists ph, gh. split; assumption.
Qed.

Lemma simulate_shape_witness :
  float_positive 1%float /\ float_positive (1 / 252)%float /\ (0 < 5)%Z /\
  float_floor (1 / (1 / 252))%float = Some 252%Z /\
  within_array_limit (252 + 1) 5 /\
  exists paths g',
    VasicekModel.simulate (VasicekModel.init 0.1 0.05 0.02 0.03 None)%float
      1%float (1 / 252)%float 5 sample_rng = Ok (paths, g') /\
    has_shape paths (252 + 1) 5.
Proof.
  assert (HT : float_positive 1%float) by reflexivity.
  assert (Hdt : float_positive (1 / 252)%float) by reflexivity.
  assert (Hp : (0 < 5)%Z) by lia.
  assert (Hfloor : float_floor (1 / (1 / 252))%float = Some 252%Z)
    by (vm_compute; reflexivity).
  assert (Hl : within_array_limit (252 + 1) 5) by reflexivity.
  repeat (split; [assumption|]).
  exact (proj1 (proj2 (simulate_shape
                  (VasicekModel.init 0.1 0.05 0.02 0.03 None)%float
                  (HoLeeModel.init 0.001 0.02 0.03 None)%float
                  1%float (1 / 252)%float 5 sample_rng HT Hdt Hp) 252%Z Hfloor Hl)).
Defined.

(** ** Zero volatility *)


Lemma same_number_sym (x y : float) : same_number x y -> same_number y x.
Proof. intros [->|[Hx Hy]]; [left|right]; auto. Qed.













(** Rounding alone can move a noise-free Vasicek path away from [b], also
    with [0 <= a*dt <= 2]: for [a = 2], [b = 1], [dt = 1] the exact step
    maps [r] to [2 - r], and from [r0 = 0.5 + 2^-53] the sum is rounded up
    to [1.5], farther from [b] than [r0] is. *)
Example zero_volatility_rounding :
  result_map fst
    (VasicekModel.simulate
       (VasicekModel.init 2 1 0 0x1.0000000000001p-1 None)%float
       1%float 1%float 1 sample_rng)
    = Ok [[0x1.0000000000001p-1]; [1.5]]%float /\
  (PrimFloat.leb (abs (1.5 - 1)) (abs (0x1.0000000000001p-1 - 1)))%float = false.
Proof. split; vm_compute; reflexivity. Qed.
